(** * firenvim: key translation and configuration resolution

    A shallow embedding of [src/KeyHandler.ts] and of the configuration
    module ([utils/configuration]): the layout validation of the key handler,
    its keydown listener, the defaulting merge of the settings tree and the
    per-URL resolution of site settings.

    JavaScript objects used as dictionaries are finite maps ([gmap string _]);
    where the code walks an object with [Object.entries] the entries are kept
    as a list, in iteration order.  Exceptions are explicit: fallible code
    returns a [result]. *)

From Stdlib Require Import ZArith Lia Ascii String List Permutation Sorted.
From stdpp Require Import base option gmap strings list.

Local Open Scope string_scope.
Local Open Scope Z_scope.
Local Set Warnings "-register-all".

(** ** JavaScript preliminaries *)

(** What a [throw] carries.  [TypeError] and [SyntaxError] are raised by the
    engine itself (reading a property of [undefined], compiling a malformed
    pattern); [Error msg] is raised by the program with [throw new Error(msg)]. *)
Inductive exn : Type :=
| TypeError
| SyntaxError
| Error (msg : string).

Inductive result (A : Type) : Type :=
| Ok (a : A)
| Throw (e : exn).
Arguments Ok {A} a.
Arguments Throw {A} e.

#[global] Instance result_ret : MRet result := fun A a => Ok a.

#[global] Instance result_bind : MBind result := fun A B k r =>
  match r with
  | Ok a => k a
  | Throw e => Throw e
  end.

(** The double quote character, for the string constants that contain one. *)
Definition dquote : string := String (ascii_of_nat 34) EmptyString.

(** The members every object literal inherits from [Object.prototype].  A
    read [o[k]] of a key that [o] does not own yields one of these built-in
    members, not [undefined], when [k] is one of these names. *)
Definition object_prototype_names : list string :=
  [ "constructor"; "hasOwnProperty"; "isPrototypeOf"; "propertyIsEnumerable";
    "toLocaleString"; "toString"; "valueOf"; "__proto__";
    "__defineGetter__"; "__defineSetter__"; "__lookupGetter__";
    "__lookupSetter__" ].

Definition inherited (k : string) : bool :=
  existsb (String.eqb k) object_prototype_names.

(** The outcome of reading [o[k]] on an object literal [o]. *)
Inductive property (A : Type) : Type :=
| Own (a : A)
| Builtin
| Undefined.
Arguments Own {A} a.
Arguments Builtin {A}.
Arguments Undefined {A}.

Definition js_get {A : Type} (o : gmap string A) (k : string) : property A :=
  match o !! k with
  | Some a => Own a
  | None => if inherited k then Builtin else Undefined
  end.

Definition is_undefined {A : Type} (p : property A) : bool :=
  match p with
  | Undefined => true
  | _ => false
  end.

(** ** utils/configuration: the data *)

Inductive NvimMode : Type :=
| m_all | m_normal | m_visual | m_insert | m_replace
| m_cmdline_normal | m_cmdline_insert | m_cmdline_replace
| m_operator | m_visual_select | m_cmdline_hover
| m_statusline_hover | m_statusline_drag | m_vsep_hover | m_vsep_drag
| m_more | m_more_lastline | m_showmatch.

Definition MappableKeys : list string :=
  [ "1"; "!"; "2"; "@"; "3"; "#"; "4"; "$"; "5"; "%"; "6"; "^"; "7"; "&";
    "8"; "*"; "9"; "("; "0"; ")"; "-"; "_"; "="; "+"; "["; "{"; "]"; "}";
    "\"; "|"; ";"; ":"; "'"; dquote; ","; "<"; "."; ">"; "/"; "?"; "`"; "~" ].

(** [MappableKeyPairs]: an object from key to shifted key, as its entries. *)
Definition MappableKeyPairs : Type := list (string * string).

Definition defaultKeyPairs : MappableKeyPairs :=
  [ ("1", "!"); ("2", "@"); ("3", "#"); ("4", "$"); ("5", "%"); ("6", "^");
    ("7", "&"); ("8", "*"); ("9", "("); ("0", ")"); ("-", "_"); ("=", "+");
    ("[", "{"); ("]", "}"); ("\", "|"); (";", ":"); ("'", dquote);
    (",", "<"); (".", ">"); ("/", "?"); ("`", "~") ].

(** The part of [GlobalSettings] the key handler reads.  [ignoreKeys] is an
    object indexed by mode; a mode without an entry reads as [undefined]. *)
Record GlobalSettings : Type := {
  alt : string;
  ignoreKeys : NvimMode -> option (list string);
  keyboard_layouts_default : MappableKeyPairs;
  shiftAlt : bool;
  shiftCtrl : bool;
  shiftAltCtrl : bool
}.

(** ** KeyHandler: the layout maps built by the constructor *)

(** [visited[v] = false] for every mappable key. *)
Definition visited_init : gmap string bool :=
  fold_left (fun visited v => <[v := false]> visited) MappableKeys ∅.

(** Truthiness of a read of [visited]: a built-in member is an object. *)
Definition truthy (p : property bool) : bool :=
  match p with
  | Own b => b
  | Builtin => true
  | Undefined => false
  end.

(** The state the first loop of [buildShiftedKeyToKey] works on:
    [visited], [keyToShiftedKey] (which is also what the loop leaves in
    [settings.keyboard_layouts.default]) and the warnings sent to the console. *)
Record BuildState : Type := {
  visited : gmap string bool;
  keyToShiftedKey : MappableKeyPairs;
  warnings : list string
}.

Definition invalid_warning (visited : gmap string bool) (k v : string) : string :=
  "Invalid " ++
  (if is_undefined (js_get visited k) then "key '" ++ k else "shifted key '" ++ v) ++
  "' used in global config: keyboard_layout.default. Overriding.".

Definition duplicate_warning (v : string) : string :=
  "Shifted key '" ++ v ++
  "' is already defined in global config: keyboard_layout.default. Overriding.".

(** One round of the loop [for (const [k, v] of Object.entries(keyToShiftedKey))].
    The entries were taken before the loop started, so the rounds run over
    the configured layout even after a round has replaced [keyToShiftedKey]. *)
Definition validate_entry (st : BuildState) (kv : string * string) : BuildState :=
  let '(k, v) := kv in
  let fallback (w : list string) :=
    {| visited := visited st;
       keyToShiftedKey := defaultKeyPairs;
       warnings := warnings st ++ w |} in
  if is_undefined (js_get (visited st) k) || is_undefined (js_get (visited st) v)
  then fallback [invalid_warning (visited st) k v]
  else if truthy (js_get (visited st) v)
  then fallback [duplicate_warning v]
  else match js_get (visited st) v with
       | Own false =>
           {| visited := <[v := true]> (visited st);
              keyToShiftedKey := keyToShiftedKey st;
              warnings := warnings st |}
       | _ => fallback []
       end.

(** The second loop: [shiftedKeyToKey[v] = k] for every entry. *)
Definition invert (pairs : MappableKeyPairs) : gmap string string :=
  fold_left (fun m kv => <[snd kv := fst kv]> m) pairs ∅.

Record Layout : Type := {
  layout_keyToShiftedKey : MappableKeyPairs;
  layout_shiftedKeyToKey : gmap string string;
  layout_warnings : list string
}.

Definition buildShiftedKeyToKey (settings : GlobalSettings) : Layout :=
  let configured := keyboard_layouts_default settings in
  let st := fold_left validate_entry configured
              {| visited := visited_init;
                 keyToShiftedKey := configured;
                 warnings := [] |} in
  {| layout_keyToShiftedKey := keyToShiftedKey st;
     layout_shiftedKeyToKey := invert (keyToShiftedKey st);
     layout_warnings := warnings st |}.

(** [settings] as the constructor leaves it: the loop stores the layout it
    settled on back into [settings.keyboard_layouts.default]. *)
Definition settings_after_build (settings : GlobalSettings) : GlobalSettings :=
  {| alt := alt settings;
     ignoreKeys := ignoreKeys settings;
     keyboard_layouts_default := layout_keyToShiftedKey (buildShiftedKeyToKey settings);
     shiftAlt := shiftAlt settings;
     shiftCtrl := shiftCtrl settings;
     shiftAltCtrl := shiftAltCtrl settings |}.

Definition hasUnshiftedKey (shiftedKeyToKey : gmap string string)
    (shifted_key : string) : bool :=
  negb (is_undefined (js_get shiftedKeyToKey shifted_key)).

(** [getUnshiftedKey] returns [shiftedKeyToKey[shifted_key]] when that is
    truthy and [shifted_key] otherwise.  An own entry is a string, truthy
    unless empty; a built-in member is truthy and is not a string, which is
    the [None] here. *)
Definition getUnshiftedKey (shiftedKeyToKey : gmap string string)
    (shifted_key : string) : option string :=
  match js_get shiftedKeyToKey shifted_key with
  | Own k => Some (if String.eqb k EmptyString then shifted_key else k)
  | Builtin => None
  | Undefined => Some shifted_key
  end.

(** ** KeyHandler: the keydown listener *)

(** A keyboard event as the browser sends it.  [key] is a [KeyboardEvent.key]
    value: a key string or a named key of the UI Events specification.  None
    of those is the name of a member of [Object.prototype], which
    [key_is_label] records.  The listener on an event whose key is any
    string is [keydown_raw] below; [keydown] is its restriction to these
    events. *)
Record KeyboardEvent : Type := {
  key : string;
  ctrlKey : bool;
  altKey : bool;
  shiftKey : bool;
  metaKey : bool;
  isTrusted : bool;
  getModifierState : string -> bool;
  key_is_label : inherited key = false
}.

(** What a run of the listener does to the outside: the strings passed to
    [this.emit("input", _)], and whether [evt.preventDefault()] and
    [evt.stopImmediatePropagation()] were called. *)
Record Effects : Type := {
  emitted : list string;
  defaultPrevented : bool;
  propagationStopped : bool
}.

Definition no_effect : Effects :=
  {| emitted := []; defaultPrevented := false; propagationStopped := false |}.

Definition emit_input (text : string) : Effects :=
  {| emitted := [text]; defaultPrevented := true; propagationStopped := true |}.

Definition is_alphanum (c : ascii) : bool :=
  let n := nat_of_ascii c in
  ((97 <=? n) && (n <=? 122) || (65 <=? n) && (n <=? 90) || (48 <=? n) && (n <=? 57))%nat.

(** [/[a-zA-Z0-9]/.test(s)]: some character of [s] is an ASCII letter or digit. *)
Definition test_alphanum (s : string) : bool :=
  existsb is_alphanum (list_ascii_of_string s).

(** Note: order of this array is important, we need to check OS before checking meta *)
Definition specialKeys : list (string * string) :=
  [ ("Alt", "A"); ("Control", "C"); ("OS", "D"); ("Meta", "D") ].

Definition shiftKeys : list (string * string) := [ ("Shift", "S") ].

Section KeyHandler.

(** [utils/keys] is not among the sources at hand; the listener is
    parameterised by what it imports from there: the table of keys with a
    non-literal representation, [translateKey] and [addModifier]. *)
Variable nonLiteralKeys : string -> option string.
Variable translateKey : string -> string.
Variable addModifier : string -> string -> string.

(** [inputMods.reduce(..., translateKey(inputKey))] *)
Definition compose (evt : KeyboardEvent) (inputMods : list (string * string))
    (inputKey : string) : string :=
  fold_left
    (fun key (am : string * string) =>
       if getModifierState evt (fst am) then addModifier (snd am) key else key)
    inputMods (translateKey inputKey).

(** The ignore list the listener checks the text against. *)
Definition ignored_keys (settings : GlobalSettings)
    (currentMode : option NvimMode) : list string :=
  let keys :=
    match currentMode ≫= ignoreKeys settings with
    | Some l => l
    | None => []
    end in
  match ignoreKeys settings m_all with
  | Some l => keys ++ l
  | None => keys
  end.

Definition includes (keys : list string) (text : string) : bool :=
  existsb (String.eqb text) keys.

(** The alt workaround: the listener returns at once. *)
Definition alt_declined (settings : GlobalSettings) (evt : KeyboardEvent) : bool :=
  altKey evt && String.eqb (alt settings) "alphanum" && negb (test_alphanum (key evt)).

(** The guard of the listener's body. *)
Definition translatable (evt : KeyboardEvent) : bool :=
  let hasModifier := shiftKey evt || altKey evt || ctrlKey evt || metaKey evt in
  isTrusted evt
  && (bool_decide (is_Some (nonLiteralKeys (key evt)))
      || (forallb (fun am : string * string => negb (String.eqb (key evt) (fst am)))
            (specialKeys ++ shiftKeys)
          && hasModifier)).

(** Whether the key is passed on as it came, without [Shift]. *)
Definition keeps_shifted (settings : GlobalSettings)
    (shiftedKeyToKey : gmap string string) (evt : KeyboardEvent) : bool :=
  let shiftAlt' := shiftKey evt && altKey evt && negb (ctrlKey evt) in
  let shiftCtrl' := shiftKey evt && negb (altKey evt) && ctrlKey evt in
  let shiftAltCtrl' := shiftKey evt && altKey evt && ctrlKey evt in
  hasUnshiftedKey shiftedKeyToKey (key evt)
  && negb ((shiftAlt' && shiftAlt settings)
           || (shiftCtrl' && shiftCtrl settings)
           || (shiftAltCtrl' && shiftAltCtrl settings)).

(** The text of a translatable event.  Where [getUnshiftedKey] hands back a
    built-in member instead of a string, what the string helpers of
    [utils/keys] do with it is not settled by these sources: the run is
    recorded as a [TypeError]. *)
Definition keydown_text (settings : GlobalSettings)
    (shiftedKeyToKey : gmap string string) (evt : KeyboardEvent) : result string :=
  if keeps_shifted settings shiftedKeyToKey evt
  then Ok (compose evt specialKeys (key evt))
  else match getUnshiftedKey shiftedKeyToKey (key evt) with
       | Some inputKey => Ok (compose evt (specialKeys ++ shiftKeys) inputKey)
       | None => Throw TypeError
       end.

(** The listener registered on ["keydown"]. *)
Definition keydown (settings : GlobalSettings)
    (shiftedKeyToKey : gmap string string) (currentMode : option NvimMode)
    (evt : KeyboardEvent) : result Effects :=
  if alt_declined settings evt then Ok no_effect
  else if translatable evt then
    text ← keydown_text settings shiftedKeyToKey evt;
    if negb (includes (ignored_keys settings currentMode) text)
    then Ok (emit_input text)
    else Ok no_effect
  else Ok no_effect.

(** The handler as constructed from [settings]: the listener over the maps
    that [buildShiftedKeyToKey] produced. *)
Definition KeyHandler_keydown (settings : GlobalSettings)
    (currentMode : option NvimMode) (evt : KeyboardEvent) : result Effects :=
  keydown (settings_after_build settings)
    (layout_shiftedKeyToKey (buildShiftedKeyToKey settings)) currentMode evt.

(** The event with nothing assumed of its key: [evt.key] is typed [string],
    and the listener reads the same fields whatever that string is. *)
Record RawKeyboardEvent : Type := {
  raw_key : string;
  raw_ctrlKey : bool;
  raw_altKey : bool;
  raw_shiftKey : bool;
  raw_metaKey : bool;
  raw_isTrusted : bool;
  raw_getModifierState : string -> bool
}.

Definition raw_of (evt : KeyboardEvent) : RawKeyboardEvent :=
  {| raw_key := key evt;
     raw_ctrlKey := ctrlKey evt;
     raw_altKey := altKey evt;
     raw_shiftKey := shiftKey evt;
     raw_metaKey := metaKey evt;
     raw_isTrusted := isTrusted evt;
     raw_getModifierState := getModifierState evt |}.

(** The listener registered on ["keydown"], statement by statement, on such
    an event.  [getUnshiftedKey] hands back [shiftedKeyToKey[evtKey]] when
    that is truthy; for a key that names a member of [Object.prototype] this
    is the built-in member, an object where [translateKey] and [addModifier]
    take a string: the run is recorded as a [TypeError]. *)
Definition keydown_raw (settings : GlobalSettings)
    (shiftedKeyToKey : gmap string string) (currentMode : option NvimMode)
    (evt : RawKeyboardEvent) : result Effects :=
  let evtKey := raw_key evt in
  let ctrlKey := raw_ctrlKey evt in
  let altKey := raw_altKey evt in
  let shiftKey := raw_shiftKey evt in
  if altKey && String.eqb (alt settings) "alphanum" && negb (test_alphanum evtKey)
  then Ok no_effect
  else
    let hasModifier := shiftKey || altKey || ctrlKey || raw_metaKey evt in
    if raw_isTrusted evt
       && (bool_decide (is_Some (nonLiteralKeys evtKey))
           || (forallb (fun am : string * string => negb (String.eqb evtKey (fst am)))
                 (specialKeys ++ [("Shift", "S")])%list
               && hasModifier))
    then
      let shiftAlt' := shiftKey && altKey && negb ctrlKey in
      let shiftCtrl' := shiftKey && negb altKey && ctrlKey in
      let shiftAltCtrl' := shiftKey && altKey && ctrlKey in
      inputs ←
        (if hasUnshiftedKey shiftedKeyToKey evtKey
            && negb ((shiftAlt' && shiftAlt settings)
                     || (shiftCtrl' && shiftCtrl settings)
                     || (shiftAltCtrl' && shiftAltCtrl settings))
         then Ok (specialKeys, evtKey)
         else match getUnshiftedKey shiftedKeyToKey evtKey with
              | Some inputKey => Ok ((specialKeys ++ [("Shift", "S")])%list, inputKey)
              | None => Throw TypeError
              end);
      let text :=
        fold_left
          (fun key (am : string * string) =>
             if raw_getModifierState evt (fst am) then addModifier (snd am) key else key)
          (fst inputs) (translateKey (snd inputs)) in
      if negb (includes (ignored_keys settings currentMode) text)
      then Ok (emit_input text)
      else Ok no_effect
    else Ok no_effect.

(** The handler as constructed from [settings], on such an event. *)
Definition KeyHandler_keydown_raw (settings : GlobalSettings)
    (currentMode : option NvimMode) (evt : RawKeyboardEvent) : result Effects :=
  keydown_raw (settings_after_build settings)
    (layout_shiftedKeyToKey (buildShiftedKeyToKey settings)) currentMode evt.

End KeyHandler.

(** ** utils/configuration: the settings tree and [mergeWithDefaults] *)

(** The values a settings tree is made of ([settings: any]).  Numbers are
    the integers; an array is an object too and takes named properties next
    to its items. *)
Inductive value : Type :=
| VUndefined
| VNull
| VBool (b : bool)
| VNumber (n : Z)
| VString (s : string)
| VArray (items : list value) (props : gmap string value)
| VObject (props : gmap string value).

Definition typeof (v : value) : string :=
  match v with
  | VUndefined => "undefined"
  | VNull => "object"
  | VBool _ => "boolean"
  | VNumber _ => "number"
  | VString _ => "string"
  | VArray _ _ => "object"
  | VObject _ => "object"
  end.

Definition isArray (v : value) : bool :=
  match v with
  | VArray _ _ => true
  | _ => false
  end.

Definition is_undefined_value (v : value) : bool :=
  match v with
  | VUndefined => true
  | _ => false
  end.

(** [obj[name]], for the names this module reads: the names of its schema,
    none of which is an array index, [length] or a built-in member.  Reading
    a property of [undefined] or [null] throws. *)
Definition get_prop (obj : value) (name : string) : result value :=
  match obj with
  | VUndefined | VNull => Throw TypeError
  | VObject props | VArray _ props => Ok (default VUndefined (props !! name))
  | VBool _ | VNumber _ | VString _ => Ok VUndefined
  end.

(** [obj[name] = v].  The module is strict code: creating a property on a
    primitive throws, as does writing to [undefined] or [null]. *)
Definition set_prop (obj : value) (name : string) (v : value) : result value :=
  match obj with
  | VObject props => Ok (VObject (<[name := v]> props))
  | VArray items props => Ok (VArray items (<[name := v]> props))
  | _ => Throw TypeError
  end.

(** [makeDefaults(obj, name, value)]; the result is [obj] after the call.
    The console warning of the second branch is left out. *)
Definition makeDefaults (obj : value) (name : string) (v : value) : result value :=
  cur ← get_prop obj name;
  if is_undefined_value cur then set_prop obj name v
  else if negb (String.eqb (typeof cur) (typeof v))
          || negb (Bool.eqb (isArray cur) (isArray v))
  then set_prop obj name v
  else Ok obj.

(** Calls that work on [obj[name]] change that object in place; [obj] keeps
    pointing to it.  With values this is: read the child, run the calls on
    it, store it back. *)
Definition in_prop (obj : value) (name : string)
    (body : value -> result value) : result value :=
  child ← get_prop obj name;
  child' ← body child;
  set_prop obj name child'.

Definition value_of_pairs (pairs : list (string * string)) : value :=
  VObject (list_to_map (prod_map id VString <$> pairs)).

(** The object literal passed for the site [".*"], as its entries in the
    order of [Object.keys]. *)
Definition default_site : list (string * value) :=
  [ ("cmdline", VString "firenvim");
    ("content", VString "text");
    ("priority", VNumber 0);
    ("renderer", VString "canvas");
    ("selector", VString ("textarea:not([readonly], [aria-readonly]), div[role="
                          ++ dquote ++ "textbox" ++ dquote ++ "]"));
    ("takeover", VString "always");
    ("filename", VString "{hostname%32}_{pathname%32}_{selector%32}_{timestamp%32}.{extension}") ].

Definition makeDefaultLocalSetting (sett : value) (site : string)
    (obj : list (string * value)) : result value :=
  in_prop sett "localSettings" (fun localSettings =>
    localSettings ← makeDefaults localSettings site (VObject ∅);
    in_prop localSettings site (fun entry =>
      foldl (fun acc kv => entry ← acc; makeDefaults entry (fst kv) (snd kv))
            (Ok entry) obj)).

Definition mergeWithDefaults (os : string) (settings : value) : result value :=
  let settings := if is_undefined_value settings then VObject ∅ else settings in
  settings ← makeDefaults settings "globalSettings" (VObject ∅);
  settings ← in_prop settings "globalSettings" (fun g =>
    g ← makeDefaults g "<C-n>" (VString "default");
    g ← makeDefaults g "<C-t>" (VString "default");
    g ← makeDefaults g "<C-w>" (VString "default");
    g ← makeDefaults g "<CS-n>" (VString "default");
    g ← makeDefaults g "<CS-t>" (VString "default");
    g ← makeDefaults g "<CS-w>" (VString "default");
    g ← makeDefaults g "ignoreKeys" (VObject ∅);
    g ← makeDefaults g "keyboard_layouts" (VObject ∅);
    g ← in_prop g "keyboard_layouts" (fun layouts =>
           makeDefaults layouts "default" (value_of_pairs defaultKeyPairs));
    g ← makeDefaults g "shiftAlt" (VBool false);
    g ← makeDefaults g "shiftCtrl" (VBool true);
    g ← makeDefaults g "shiftAltCtrl" (VBool true);
    g ← makeDefaults g "cmdlineTimeout" (VNumber 3000);
    if String.eqb os "mac"
    then makeDefaults g "alt" (VString "alphanum")
    else makeDefaults g "alt" (VString "all"));
  settings ← makeDefaults settings "localSettings" (VObject ∅);
  makeDefaultLocalSetting settings ".*" default_site.

(** ** utils/configuration: the loaded configuration and its readers *)

(** A site entry of [localSettings].  Only the entry [".*"] is completed by
    [mergeWithDefaults]; any other holds the fields its author gave, so each
    field is optional.  [priority] is a number, here an integer. *)
Record ISiteConfig : Type := {
  cmdline : option string;
  content : option string;
  priority : option Z;
  renderer : option string;
  selector : option string;
  takeover : option string;
  filename : option string
}.

Definition empty_site_config : ISiteConfig :=
  {| cmdline := None; content := None; priority := None; renderer := None;
     selector := None; takeover := None; filename := None |}.

(** [conf] once loaded: the object read from storage, whose two entries may
    be missing.  [localSettings] is kept as [Object.entries] lists it. *)
Record IConfig : Type := {
  globalSettings : option GlobalSettings;
  localSettings : option (list (string * ISiteConfig))
}.

(** [getGlobalConf()], for the current value of the module variable [conf]:
    [None] while it is still [undefined]. *)
Definition getGlobalConf (conf : option IConfig) : result (option GlobalSettings) :=
  match conf with
  | None => Throw (Error "getGlobalConf called before config was ready")
  | Some c => Ok (globalSettings c)
  end.

Definition or1 (val : option Z) : Z :=
  match val with
  | None => 1
  | Some n => n
  end.

(** [Object.assign(acc, cur)]: every field [cur] has is copied over. *)
Definition assign (acc cur : ISiteConfig) : ISiteConfig :=
  {| cmdline := from_option Some (cmdline acc) (cmdline cur);
     content := from_option Some (content acc) (content cur);
     priority := from_option Some (priority acc) (priority cur);
     renderer := from_option Some (renderer acc) (renderer cur);
     selector := from_option Some (selector acc) (selector cur);
     takeover := from_option Some (takeover acc) (takeover cur);
     filename := from_option Some (filename acc) (filename cur) |}.

(** [Array.prototype.sort] with the comparator
    [(e1, e2) => or1(e1[1].priority) - or1(e2[1].priority)]: the sort is
    stable, entries of equal priority keep their order. *)
Fixpoint insert_by_priority (e : string * ISiteConfig)
    (l : list (string * ISiteConfig)) : list (string * ISiteConfig) :=
  match l with
  | [] => [e]
  | e' :: l' =>
      if or1 (priority (snd e)) <=? or1 (priority (snd e'))
      then e :: e' :: l'
      else e' :: insert_by_priority e l'
  end.

Definition sort_by_priority (l : list (string * ISiteConfig))
  : list (string * ISiteConfig) :=
  foldr insert_by_priority [] l.

Definition settings_undefined_message : string :=
  "Error: your settings are undefined. Try reloading the page. If this error persists, try the troubleshooting guide: https://github.com/glacambre/firenvim/blob/master/TROUBLESHOOTING.md".

Section SiteConfigResolver.

(** [new RegExp(pat)]: [None] when the pattern does not compile (a
    [SyntaxError]), otherwise the predicate [re.test]. *)
Variable RegExp : string -> option (string -> bool).

(** [.filter(([pat, _]) => (new RegExp(pat)).test(url))] *)
Fixpoint filter_matching (url : string) (entries : list (string * ISiteConfig))
  : result (list (string * ISiteConfig)) :=
  match entries with
  | [] => Ok []
  | e :: rest =>
      match RegExp (fst e) with
      | None => Throw SyntaxError
      | Some test =>
          let keep := test url in
          rest' ← filter_matching url rest;
          Ok (if keep then e :: rest' else rest')
      end
  end.

Definition getConfForUrl (conf : option IConfig) (url : string) : result ISiteConfig :=
  match conf with
  | None => Throw TypeError
  | Some c =>
      match localSettings c with
      | None => Throw (Error settings_undefined_message)
      | Some entries =>
          matching ← filter_matching url entries;
          Ok (foldl (fun acc e => assign acc (snd e)) empty_site_config
                (sort_by_priority matching))
      end
  end.

End SiteConfigResolver.

(** ** utils/keys, from the specification *)

(** Modelled from the spec: the table [nonLiteralKeys] of [utils/keys] is
    missing from the sources.  The spec describes it as the fixed translation
    table of the keys with a non-literal name, "e.g. Escape, Enter, arrow
    keys", and writes the result in the editor's bracketed notation
    ([<C-A-Left>] for the left arrow); the entries below are the ones it
    names. *)
Definition spec_nonLiteralKeys_table : list (string * string) :=
  [ ("Escape", "<Esc>"); ("Enter", "<CR>");
    ("ArrowLeft", "<Left>"); ("ArrowRight", "<Right>");
    ("ArrowUp", "<Up>"); ("ArrowDown", "<Down>") ].

(** [nonLiteralKeys[k]] on that table. *)
Definition spec_nonLiteralKeys (k : string) : option string :=
  snd <$> List.find (fun kv => String.eqb k (fst kv)) spec_nonLiteralKeys_table.

(** Modelled from the spec: [translateKey] of [utils/keys] is missing from
    the sources.  The composer works on "a translated base key string": the
    entry of the translation table when the key has one, the key itself
    otherwise. *)
Definition spec_translateKey (k : string) : string :=
  default k (spec_nonLiteralKeys k).

Definition is_upper (c : ascii) : bool :=
  let n := nat_of_ascii c in ((65 <=? n) && (n <=? 90))%nat.

(** [<inner>] gives [inner]. *)
Definition unbracket (text : string) : option string :=
  match list_ascii_of_string text with
  | c :: rest =>
      match rev rest with
      | c' :: inner =>
          if Ascii.eqb c "<" && Ascii.eqb c' ">" && negb (Nat.eqb (length inner) 0)
          then Some (string_of_list_ascii (rev inner))
          else None
      | [] => None
      end
  | [] => None
  end.

(** What follows the leading capital letters of [cs]. *)
Fixpoint after_capitals (cs : list ascii) : list ascii :=
  match cs with
  | c :: cs' => if is_upper c then after_capitals cs' else cs
  | [] => []
  end.

(** Whether [inner] reads [MODS-key]: some capital letters, a dash, a key. *)
Definition has_modifiers (inner : string) : bool :=
  match list_ascii_of_string inner with
  | c :: cs =>
      is_upper c
      && match after_capitals cs with
         | d :: _ :: _ => Ascii.eqb d "-"
         | _ => false
         end
  | [] => false
  end.

(** Modelled from the spec: [addModifier] of [utils/keys] is missing from the
    sources.  The spec has each active modifier added "as a bracketed prefix
    accumulated onto the key (e.g. base [a] + Control active gives [<C-a>];
    chaining multiple modifiers ... extends the same bracket)", as in its
    [<SC-2>]. *)
Definition spec_addModifier (modifier text : string) : string :=
  match unbracket text with
  | Some inner =>
      if has_modifiers inner
      then "<" ++ modifier ++ inner ++ ">"
      else "<" ++ modifier ++ "-" ++ inner ++ ">"
  | None => "<" ++ modifier ++ "-" ++ text ++ ">"
  end.

(** ** A fragment of [RegExp] *)

(** The patterns made of literal characters, escaped punctuation, [.] and
    the postfix [*] on one of these.  It serves to run the resolver on the
    patterns of the default configuration; any other pattern is left
    uninterpreted ([None]). *)
Inductive atom : Type :=
| AChar (c : ascii)
| AAny.

Definition syntax_chars : list ascii :=
  list_ascii_of_string "^$\.*+?()[]{}|/".

Definition is_syntax_char (c : ascii) : bool := existsb (Ascii.eqb c) syntax_chars.

Fixpoint parse_atoms (fuel : nat) (cs : list ascii) : option (list (atom * bool)) :=
  match fuel with
  | O => None
  | S fuel' =>
      let starred (a : atom) (rest : list ascii) :=
        match rest with
        | c :: rest' =>
            if Ascii.eqb c "*"
            then items ← parse_atoms fuel' rest'; Some ((a, true) :: items)
            else items ← parse_atoms fuel' rest; Some ((a, false) :: items)
        | [] => Some [(a, false)]
        end in
      match cs with
      | [] => Some []
      | c :: rest =>
          if Ascii.eqb c "\" then
            match rest with
            | e :: rest' => if is_syntax_char e then starred (AChar e) rest' else None
            | [] => None
            end
          else if Ascii.eqb c "." then starred AAny rest
          else if is_syntax_char c then None
          else starred (AChar c) rest
      end
  end.

Definition is_line_terminator (c : ascii) : bool :=
  Nat.eqb (nat_of_ascii c) 10 || Nat.eqb (nat_of_ascii c) 13.

Definition atom_matches (a : atom) (c : ascii) : bool :=
  match a with
  | AChar c' => Ascii.eqb c c'
  | AAny => negb (is_line_terminator c)
  end.

(** Whether the items match a prefix of [s]. *)
Fixpoint match_here (items : list (atom * bool)) (s : list ascii) : bool :=
  match items with
  | [] => true
  | (a, false) :: rest =>
      match s with
      | c :: s' => atom_matches a c && match_here rest s'
      | [] => false
      end
  | (a, true) :: rest =>
      (fix star (s : list ascii) : bool :=
         match_here rest s
         || match s with
            | c :: s' => atom_matches a c && star s'
            | [] => false
            end) s
  end.

(** [re.test(s)]: the pattern matches somewhere in [s]. *)
Fixpoint search (items : list (atom * bool)) (s : list ascii) : bool :=
  match_here items s
  || match s with
     | _ :: s' => search items s'
     | [] => false
     end.

Definition RegExp_fragment (pat : string) : option (string -> bool) :=
  items ← parse_atoms (S (String.length pat)) (list_ascii_of_string pat);
  Some (fun s => search items (list_ascii_of_string s)).

(** The three combinations of modifiers for which the matching flag of the
    settings asks for the unshifted key. *)
Definition flagged (settings : GlobalSettings) (evt : KeyboardEvent) : Prop :=
  (shiftKey evt = true /\ altKey evt = true /\ ctrlKey evt = false
   /\ shiftAlt settings = true)
  \/ (shiftKey evt = true /\ altKey evt = false /\ ctrlKey evt = true
      /\ shiftCtrl settings = true)
  \/ (shiftKey evt = true /\ altKey evt = true /\ ctrlKey evt = true
      /\ shiftAltCtrl settings = true).

(** The same three combinations, read off an event whose key is any string. *)
Definition raw_flagged (settings : GlobalSettings) (evt : RawKeyboardEvent) : Prop :=
  (raw_shiftKey evt = true /\ raw_altKey evt = true /\ raw_ctrlKey evt = false
   /\ shiftAlt settings = true)
  \/ (raw_shiftKey evt = true /\ raw_altKey evt = false /\ raw_ctrlKey evt = true
      /\ shiftCtrl settings = true)
  \/ (raw_shiftKey evt = true /\ raw_altKey evt = true /\ raw_ctrlKey evt = true
      /\ shiftAltCtrl settings = true).

(** The alt workaround applies: [Alt] is held, the policy is ["alphanum"]
    and the key has no ASCII letter or digit. *)
Definition alt_workaround (settings : GlobalSettings) (evt : RawKeyboardEvent) : Prop :=
  raw_altKey evt = true /\ alt settings = "alphanum"
  /\ test_alphanum (raw_key evt) = false.

(** The key is the name of a modifier. *)
Definition modifier_name (k : string) : Prop :=
  In k ["Alt"; "Control"; "OS"; "Meta"; "Shift"].

(** Some modifier flag of the event is set. *)
Definition has_modifier (evt : RawKeyboardEvent) : Prop :=
  raw_shiftKey evt = true \/ raw_altKey evt = true
  \/ raw_ctrlKey evt = true \/ raw_metaKey evt = true.

(** The suppression list for a mode: the list of the mode, if any, followed
    by the list for [all], if any. *)
Definition suppressed (settings : GlobalSettings) (currentMode : option NvimMode)
  : list string :=
  default [] (currentMode ≫= ignoreKeys settings)
  ++ default [] (ignoreKeys settings m_all).

(** What the listener does with the notation string [text]: nothing when
    the string is on the suppression list; otherwise it emits the string,
    prevents the default action and stops the propagation. *)
Definition answers (settings : GlobalSettings) (currentMode : option NvimMode)
    (r : result Effects) (text : string) : Prop :=
  (In text (suppressed settings currentMode) -> r = Ok no_effect)
  /\ (~ In text (suppressed settings currentMode) ->
      r = Ok {| emitted := [text]; defaultPrevented := true;
                propagationStopped := true |}).

(** ** Notions used to state the properties of the layout maps *)

(** The keys [visited] owns are the mappable keys, from the start on. *)
Definition visited_ok (visited : gmap string bool) : Prop :=
  forall x, is_Some (visited !! x) <-> In x MappableKeys.

(** An entry the validation catches: a key that is neither mappable nor the
    name of a built-in member, or a shifted key that is not mappable. *)
Definition caught_entry (kv : string * string) : Prop :=
  (~ In (fst kv) MappableKeys /\ inherited (fst kv) = false)
  \/ ~ In (snd kv) MappableKeys.

(** The layouts with an entry that the validation rejects. *)
Definition rejected_layout (l : MappableKeyPairs) : Prop :=
  Exists caught_entry l
  \/ exists (l1 : MappableKeyPairs) k1 v l2 k2 l3,
       l = (l1 ++ (k1, v) :: l2 ++ (k2, v) :: l3)%list.

(** ** The schema of defaults, as data *)

(** [makeDefaults] keeps the current value [cur] of a field exactly when it
    is defined and has the type and the array-ness of the default [d]. *)
Definition accepts (cur d : value) : bool :=
  negb (is_undefined_value cur)
  && String.eqb (typeof cur) (typeof d)
  && Bool.eqb (isArray cur) (isArray d).

(** The named properties of an object or an array. *)
Definition props_of (obj : value) : option (gmap string value) :=
  match obj with
  | VObject props | VArray _ props => Some props
  | _ => None
  end.

Definition with_props (obj : value) (props : gmap string value) : value :=
  match obj with
  | VObject _ => VObject props
  | VArray items _ => VArray items props
  | _ => obj
  end.

(** [obj[name]] where [obj] is an object, [undefined] elsewhere; used to
    state what became of a field. *)
Definition child (obj : value) (name : string) : value :=
  match props_of obj with
  | Some props => default VUndefined (props !! name)
  | None => VUndefined
  end.

(** The calls of [mergeWithDefaults] on a field [name] of [obj] amount to
    one update of that field by a function of its current value. *)
Definition step (name : string) (update : value -> result value) (obj : value)
  : result value :=
  match props_of obj with
  | Some props =>
      c ← update (default VUndefined (props !! name));
      Ok (with_props obj (<[name := c]> props))
  | None => Throw TypeError
  end.

Definition run (steps : list (string * (value -> result value))) (obj : value)
  : result value :=
  foldl (fun acc s => obj ← acc; step (fst s) (snd s) obj) (Ok obj) steps.

(** A field with the default [d] and nothing below it. *)
Definition leaf (d : value) : value -> result value :=
  fun cur => Ok (if accepts cur d then cur else d).

(** A field with the default [d] whose own fields are defaulted by [steps]. *)
Definition node (d : value) (steps : list (string * (value -> result value)))
  : value -> result value :=
  fun cur => run steps (if accepts cur d then cur else d).

Definition site_schema : list (string * (value -> result value)) :=
  (fun kv => (fst kv, leaf (snd kv))) <$> default_site.

Definition keyboard_layouts_schema : list (string * (value -> result value)) :=
  [ ("default", leaf (value_of_pairs defaultKeyPairs)) ].

Definition globalSettings_schema (os : string)
  : list (string * (value -> result value)) :=
  [ ("<C-n>", leaf (VString "default"));
    ("<C-t>", leaf (VString "default"));
    ("<C-w>", leaf (VString "default"));
    ("<CS-n>", leaf (VString "default"));
    ("<CS-t>", leaf (VString "default"));
    ("<CS-w>", leaf (VString "default"));
    ("ignoreKeys", leaf (VObject ∅));
    ("keyboard_layouts", node (VObject ∅) keyboard_layouts_schema);
    ("shiftAlt", leaf (VBool false));
    ("shiftCtrl", leaf (VBool true));
    ("shiftAltCtrl", leaf (VBool true));
    ("cmdlineTimeout", leaf (VNumber 3000));
    ("alt", leaf (VString (if String.eqb os "mac" then "alphanum" else "all"))) ].

Definition localSettings_schema : list (string * (value -> result value)) :=
  [ (".*", node (VObject ∅) site_schema) ].

Definition settings_schema (os : string) : list (string * (value -> result value)) :=
  [ ("globalSettings", node (VObject ∅) (globalSettings_schema os));
    ("localSettings", node (VObject ∅) localSettings_schema) ].

(** An update that, run on its own result, changes nothing. *)
Definition settled (update : value -> result value) : Prop :=
  forall c c', update c = Ok c' -> update c' = Ok c'.

(** An update that can only fail with a [TypeError]. *)
Definition fails_by_type (update : value -> result value) : Prop :=
  forall c e, update c = Throw e -> e = TypeError.

(** ** Notions used to state the properties of the resolver *)

(** Whether the key of an entry, as a pattern, matches the URL. *)
Definition matches_url (RegExp : string -> option (string -> bool)) (url : string)
    (e : string * ISiteConfig) : bool :=
  match RegExp (fst e) with
  | Some test => test url
  | None => false
  end.

(** Ascending priority, a missing priority counting as 1. *)
Definition priority_le (e1 e2 : string * ISiteConfig) : Prop :=
  or1 (priority (snd e1)) <= or1 (priority (snd e2)).

(** The field [field] of [resolved] is the one of the last entry of [l] that
    has it, and is missing when no entry has it. *)
Definition last_wins {A : Type} (field : ISiteConfig -> option A)
    (l : list (string * ISiteConfig)) (resolved : ISiteConfig) : Prop :=
  (forall l1 e l2 v,
     l = (l1 ++ e :: l2)%list ->
     field (snd e) = Some v ->
     Forall (fun e' => field (snd e') = None) l2 ->
     field resolved = Some v)
  /\ (Forall (fun e => field (snd e) = None) l -> field resolved = None).

(** For a field and the entries that match: an entry that has the field,
    and a higher priority than every other matching entry that has it,
    decides the field. *)
Definition highest_priority_wins {A : Type} (field : ISiteConfig -> option A)
    (matching : list (string * ISiteConfig)) (resolved : ISiteConfig) : Prop :=
  forall e v,
    In e matching ->
    field (snd e) = Some v ->
    (forall e', In e' matching -> is_Some (field (snd e')) ->
                e' = e \/ or1 (priority (snd e')) < or1 (priority (snd e))) ->
    field resolved = Some v.

(** The resolved configuration has the field exactly when some matching
    entry has it. *)
Definition set_by_some_entry {A : Type} (field : ISiteConfig -> option A)
    (matching : list (string * ISiteConfig)) (resolved : ISiteConfig) : Prop :=
  is_Some (field resolved) <-> Exists (fun e => is_Some (field (snd e))) matching.

(** ** Sample inputs *)

(** The global settings [mergeWithDefaults] produces from an empty tree
    (outside macOS), with a given layout and given ignore lists. *)
Definition settings_with (layout : MappableKeyPairs)
    (ignore : NvimMode -> option (list string)) : GlobalSettings :=
  {| alt := "all";
     ignoreKeys := ignore;
     keyboard_layouts_default := layout;
     shiftAlt := false;
     shiftCtrl := true;
     shiftAltCtrl := true |}.

Definition default_settings : GlobalSettings :=
  settings_with defaultKeyPairs (fun _ => None).

(** Settings with the three shift flags set to the same value. *)
Definition settings_with_shift_flags (flag : bool) : GlobalSettings :=
  {| alt := "all";
     ignoreKeys := fun _ => None;
     keyboard_layouts_default := defaultKeyPairs;
     shiftAlt := flag;
     shiftCtrl := flag;
     shiftAltCtrl := flag |}.

(** [getModifierState] of an event sent by the browser: it agrees with the
    four modifier flags. *)
Definition modifier_state (shift alt ctrl meta : bool) (name : string) : bool :=
  if String.eqb name "Shift" then shift
  else if String.eqb name "Alt" then alt
  else if String.eqb name "Control" then ctrl
  else if String.eqb name "Meta" then meta
  else false.

(** A trusted keydown event for the key [k]. *)
Definition trusted_keydown (k : string) (label : inherited k = false)
    (shift alt ctrl meta : bool) : KeyboardEvent :=
  {| key := k;
     ctrlKey := ctrl;
     altKey := alt;
     shiftKey := shift;
     metaKey := meta;
     isTrusted := true;
     getModifierState := modifier_state shift alt ctrl meta;
     key_is_label := label |}.

(** [Shift] held alone with the key labelled [@]. *)
Definition shift_at : KeyboardEvent :=
  trusted_keydown "@" eq_refl true false false false.

(** [Control] and [Shift] held with the key labelled [@]. *)
Definition ctrl_shift_at : KeyboardEvent :=
  trusted_keydown "@" eq_refl true false true false.

(** The settings of the default configuration with [<C-@>] ignored in
    normal mode and [<SC-2>] ignored in all modes. *)
Definition settings_ignoring : GlobalSettings :=
  settings_with defaultKeyPairs
    (fun mode =>
       match mode with
       | m_normal => Some ["<C-@>"]
       | m_all => Some ["<SC-2>"]
       | _ => None
       end).

(** A site entry that only sets its priority and its renderer. *)
Definition site_entry (p : Z) (r : string) : ISiteConfig :=
  {| cmdline := None; content := None; priority := Some p; renderer := Some r;
     selector := None; takeover := None; filename := None |}.

(** The configuration whose site table has the pattern [.*] with priority 0
    and the canvas renderer and the pattern [example\.com] with priority 10
    and the html renderer. *)
Definition example_conf : IConfig :=
  {| globalSettings := Some default_settings;
     localSettings := Some [ (".*", site_entry 0 "canvas");
                             ("example\.com", site_entry 10 "html") ] |}.


(** A stored tree with keys of its own at every level, a field of the wrong
    type ([cmdlineTimeout]), and a site entry besides [".*"]. *)
Definition sample_tree : value :=
  VObject (list_to_map
    [ ("globalSettings", VObject (list_to_map
         [ ("alt", VString "alphanum");
           ("cmdlineTimeout", VString "soon");
           ("mine", VNumber 7);
           ("keyboard_layouts", VObject (list_to_map
              [ ("dvorak", VObject ∅) ])) ]));
      ("extra", VBool true);
      ("localSettings", VObject (list_to_map
         [ ("github\.com", VObject (list_to_map [ ("priority", VNumber 5) ]));
           (".*", VObject (list_to_map
              [ ("takeover", VString "never"); ("note", VString "kept") ])) ])) ]).

(** A site entry that only sets its renderer; its priority is the default. *)
Definition site_renderer (r : string) : ISiteConfig :=
  {| cmdline := None; content := None; priority := None; renderer := Some r;
     selector := None; takeover := None; filename := None |}.

(** Two entries of the default priority that both match [http://example.com]. *)
Definition tied_conf : IConfig :=
  {| globalSettings := None;
     localSettings := Some [ (".*", site_renderer "canvas");
                             ("example\.com", site_renderer "html") ] |}.

(** A site table with a key that is no pattern (a group left open). *)
Definition broken_conf : IConfig :=
  {| globalSettings := None;
     localSettings := Some [ (".*", site_renderer "canvas");
                             ("(", site_renderer "html") ] |}.

(** A trusted keydown event for the key [k], any string. *)
Definition raw_keydown (k : string) (shift alt ctrl meta : bool) : RawKeyboardEvent :=
  {| raw_key := k;
     raw_ctrlKey := ctrl;
     raw_altKey := alt;
     raw_shiftKey := shift;
     raw_metaKey := meta;
     raw_isTrusted := true;
     raw_getModifierState := modifier_state shift alt ctrl meta |}.

(** The two entries of [example_conf]. *)
Definition example_entries : list (string * ISiteConfig) :=
  [ (".*", site_entry 0 "canvas"); ("example\.com", site_entry 10 "html") ].

(** The same table with the entry of the higher priority first. *)
Definition example_conf_reversed : IConfig :=
  {| globalSettings := Some default_settings;
     localSettings := Some [ ("example\.com", site_entry 10 "html");
                             (".*", site_entry 0 "canvas") ] |}.

(** [obj[i]] for an array index [i]. *)
Definition item (obj : value) (i : nat) : value :=
  match obj with
  | VArray items _ => default VUndefined (items !! i)
  | _ => VUndefined
  end.

(** A tree whose [globalSettings] is an array, with one item and one named
    key of its own. *)
Definition array_tree : value :=
  VObject (list_to_map
    [ ("globalSettings", VArray [VNumber 7] (list_to_map [ ("mine", VNumber 7) ])) ]).

(** * Properties *)

(** ** The layout maps *)

Lemma inherited_spec (k : string) :
  inherited k = true <-> In k object_prototype_names.
Proof.
  unfold inherited. rewrite existsb_exists. split.
  - intros (x & Hx & Heq). apply String.eqb_eq in Heq. by subst.
  - intros Hk. exists k. split; [done | apply String.eqb_refl].
Qed.

Lemma mark_false_lookup (l : list string) (m : gmap string bool) (x : string) :
  fold_left (fun visited v => <[v := false]> visited) l m !! x
  = if existsb (String.eqb x) l then Some false else m !! x.
Proof.
  revert m. induction l as [|v l IH]; intros m; simpl; [done |].
  rewrite IH. destruct (existsb (String.eqb x) l).
  - by rewrite orb_true_r.
  - rewrite orb_false_r. destruct (String.eqb_spec x v) as [->|Hne].
    + by rewrite lookup_insert_eq.
    + by rewrite lookup_insert_ne.
Qed.

Lemma visited_init_ok : visited_ok visited_init.
Proof.
  intros x. unfold visited_init. rewrite mark_false_lookup, lookup_empty.
  destruct (existsb (String.eqb x) MappableKeys) eqn:E.
  - split; [intros _ | by eauto].
    apply existsb_exists in E as (y & Hy & Heq).
    apply String.eqb_eq in Heq. by subst.
  - split; [by intros [? ?] |]. intros Hin.
    assert (existsb (String.eqb x) MappableKeys = true) as E'; [| congruence].
    apply existsb_exists. exists x. split; [done | apply String.eqb_refl].
Qed.

Lemma mappable_not_inherited (x : string) :
  In x MappableKeys -> inherited x = false.
Proof.
  intros Hin. unfold MappableKeys in Hin. simpl in Hin.
  repeat (destruct Hin as [<-|Hin]; [reflexivity |]). destruct Hin.
Qed.

Lemma validate_entry_visited_ok (st : BuildState) (kv : string * string) :
  visited_ok (visited st) -> visited_ok (visited (validate_entry st kv)).
Proof.
  intros Hok. destruct kv as [k v]. unfold validate_entry.
  destruct (is_undefined _ || is_undefined _); [done |].
  destruct (truthy _); [done |].
  destruct (js_get (visited st) v) as [[]| |] eqn:E; try done.
  simpl. intros x. unfold js_get in E.
  destruct (visited st !! v) eqn:Ev; [| by destruct (inherited v)].
  destruct (decide (x = v)) as [->|Hne].
  - rewrite lookup_insert_eq. split; [intros _ | by eauto].
    apply Hok. by eauto.
  - rewrite lookup_insert_ne by done. apply Hok.
Qed.

(** Once a round has fallen back to the default layout, it stays. *)
Lemma validate_entry_default (st : BuildState) (kv : string * string) :
  keyToShiftedKey st = defaultKeyPairs ->
  keyToShiftedKey (validate_entry st kv) = defaultKeyPairs.
Proof.
  intros Hd. destruct kv as [k v]. unfold validate_entry.
  destruct (is_undefined _ || is_undefined _); [done |].
  destruct (truthy _); [done |].
  by destruct (js_get (visited st) v) as [[]| |].
Qed.

Lemma validate_entries_default (l : MappableKeyPairs) (st : BuildState) :
  keyToShiftedKey st = defaultKeyPairs ->
  keyToShiftedKey (fold_left validate_entry l st) = defaultKeyPairs.
Proof.
  revert st. induction l as [|kv l IH]; intros st Hd; simpl; [done |].
  apply IH. by apply validate_entry_default.
Qed.

Lemma validate_entries_visited_ok (l : MappableKeyPairs) (st : BuildState) :
  visited_ok (visited st) -> visited_ok (visited (fold_left validate_entry l st)).
Proof.
  revert st. induction l as [|kv l IH]; intros st Hok; simpl; [done |].
  apply IH. by apply validate_entry_visited_ok.
Qed.

(** A shifted key that has been claimed stays claimed. *)
Lemma validate_entry_claimed (st : BuildState) (kv : string * string) (v : string) :
  visited st !! v = Some true -> visited (validate_entry st kv) !! v = Some true.
Proof.
  intros Hv. destruct kv as [k' v']. unfold validate_entry.
  destruct (is_undefined _ || is_undefined _); [done |].
  destruct (truthy _); [done |].
  destruct (js_get (visited st) v') as [[]| |] eqn:E; try done.
  simpl. destruct (decide (v' = v)) as [->|Hne].
  - by rewrite lookup_insert_eq.
  - by rewrite lookup_insert_ne.
Qed.

Lemma validate_entries_claimed (l : MappableKeyPairs) (st : BuildState) (v : string) :
  visited st !! v = Some true ->
  visited (fold_left validate_entry l st) !! v = Some true.
Proof.
  revert st. induction l as [|kv l IH]; intros st Hv; simpl; [done |].
  apply IH. by apply validate_entry_claimed.
Qed.

(** A round either falls back or claims the shifted key of its entry. *)
Lemma validate_entry_cases (st : BuildState) (k v : string) :
  keyToShiftedKey (validate_entry st (k, v)) = defaultKeyPairs
  \/ (visited st !! v = Some false
      /\ is_undefined (js_get (visited st) k) = false
      /\ validate_entry st (k, v)
         = {| visited := <[v := true]> (visited st);
              keyToShiftedKey := keyToShiftedKey st;
              warnings := warnings st |}).
Proof.
  unfold validate_entry.
  destruct (is_undefined (js_get (visited st) k)) eqn:Ek; [by left |].
  destruct (is_undefined (js_get (visited st) v)) eqn:Ev; [by left |].
  simpl. destruct (truthy _) eqn:Et; [by left |].
  unfold js_get in *. destruct (visited st !! v) as [[]|] eqn:E.
  - done.
  - by right.
  - destruct (inherited v); by left.
Qed.

Lemma validate_entry_caught (st : BuildState) (kv : string * string) :
  visited_ok (visited st) -> caught_entry kv ->
  keyToShiftedKey (validate_entry st kv) = defaultKeyPairs.
Proof.
  intros Hok Hc. destruct kv as [k v].
  destruct (validate_entry_cases st k v) as [Hd | (Hv & Hk & _)]; [done |].
  exfalso. destruct Hc as [[Hk1 Hk2] | Hv1]; simpl in *.
  - unfold js_get in Hk. destruct (visited st !! k) eqn:E.
    + apply Hk1, Hok. by eauto.
    + by rewrite Hk2 in Hk.
  - apply Hv1, Hok. by eauto.
Qed.

Lemma validate_entries_caught (l : MappableKeyPairs) (st : BuildState) :
  visited_ok (visited st) -> Exists caught_entry l ->
  keyToShiftedKey (fold_left validate_entry l st) = defaultKeyPairs.
Proof.
  revert st. induction l as [|kv l IH]; intros st Hok Hex; simpl.
  - by apply Exists_nil in Hex.
  - apply Exists_cons in Hex as [Hc | Hex].
    + apply validate_entries_default. by apply validate_entry_caught.
    + apply IH; [by apply validate_entry_visited_ok | done].
Qed.

Lemma validate_entries_twice (l1 l2 l3 : MappableKeyPairs) (k1 k2 v : string)
    (st : BuildState) :
  keyToShiftedKey
    (fold_left validate_entry (l1 ++ (k1, v) :: l2 ++ (k2, v) :: l3) st)
  = defaultKeyPairs.
Proof.
  rewrite fold_left_app. simpl. set (st1 := fold_left validate_entry l1 st).
  destruct (validate_entry_cases st1 k1 v) as [Hd | (_ & _ & Heq)].
  { by apply validate_entries_default. }
  rewrite fold_left_app. simpl.
  set (st2 := fold_left validate_entry l2 (validate_entry st1 (k1, v))).
  assert (visited st2 !! v = Some true) as Hv.
  { apply validate_entries_claimed. rewrite Heq. simpl. apply lookup_insert_eq. }
  apply validate_entries_default.
  destruct (validate_entry_cases st2 k2 v) as [Hd | (Hv' & _)]; [done |].
  congruence.
Qed.

(** Such a layout is given up as a whole: both maps are those of the default
    layout, which is also stored back into the settings. *)
Lemma buildShiftedKeyToKey_rejected (settings : GlobalSettings) :
  rejected_layout (keyboard_layouts_default settings) ->
  layout_keyToShiftedKey (buildShiftedKeyToKey settings) = defaultKeyPairs
  /\ layout_shiftedKeyToKey (buildShiftedKeyToKey settings) = invert defaultKeyPairs
  /\ keyboard_layouts_default (settings_after_build settings) = defaultKeyPairs.
Proof.
  intros Hrej.
  assert (layout_keyToShiftedKey (buildShiftedKeyToKey settings) = defaultKeyPairs) as H.
  { unfold buildShiftedKeyToKey. simpl.
    destruct Hrej as [Hex | (l1 & k1 & v & l2 & k2 & l3 & ->)].
    - apply validate_entries_caught; [apply visited_init_ok | done].
    - apply validate_entries_twice. }
  split; [done |]. split; [| done].
  unfold buildShiftedKeyToKey in *. simpl in *. by rewrite H.
Qed.

(** Whatever the configured layout, the shifted keys of the one that is kept
    are mappable keys. *)
Lemma validate_entries_shifted (l : MappableKeyPairs) (st : BuildState) :
  visited_ok (visited st) ->
  keyToShiftedKey (fold_left validate_entry l st) = defaultKeyPairs
  \/ (keyToShiftedKey (fold_left validate_entry l st) = keyToShiftedKey st
      /\ Forall (fun kv => In (snd kv) MappableKeys) l).
Proof.
  revert st. induction l as [|[k v] l IH]; intros st Hok; cbn [fold_left].
  - right. by split.
  - destruct (validate_entry_cases st k v) as [Hd | (Hv & _ & Heq)].
    + left. by apply validate_entries_default.
    + destruct (IH (validate_entry st (k, v))) as [Hd | [Hk Hall]].
      * by apply validate_entry_visited_ok.
      * by left.
      * right. split; [by rewrite Hk, Heq |].
        constructor; [| done]. simpl. apply Hok. by eauto.
Qed.

Lemma invert_lookup_aux (pairs : MappableKeyPairs) (m : gmap string string)
    (x k : string) :
  fold_left (fun m kv => <[snd kv := fst kv]> m) pairs m !! x = Some k ->
  In (k, x) pairs \/ m !! x = Some k.
Proof.
  revert m. induction pairs as [|[k' v'] pairs IH]; intros m H; simpl in *.
  - by right.
  - apply IH in H as [Hin | H]; [by left; right |].
    destruct (decide (v' = x)) as [->|Hne].
    + rewrite lookup_insert_eq in H. left; left. congruence.
    + rewrite lookup_insert_ne in H by done. by right.
Qed.

Lemma invert_lookup (pairs : MappableKeyPairs) (x k : string) :
  invert pairs !! x = Some k -> In (k, x) pairs.
Proof.
  intros H. apply invert_lookup_aux in H as [H | H]; [done |].
  by rewrite lookup_empty in H.
Qed.

Lemma defaultKeyPairs_shifted :
  Forall (fun kv => In (snd kv) MappableKeys) defaultKeyPairs.
Proof.
  unfold defaultKeyPairs, MappableKeys.
  repeat (constructor; [simpl; tauto |]). constructor.
Qed.

Lemma shiftedKeyToKey_mappable (settings : GlobalSettings) (x k : string) :
  layout_shiftedKeyToKey (buildShiftedKeyToKey settings) !! x = Some k ->
  In x MappableKeys.
Proof.
  unfold buildShiftedKeyToKey. simpl. intros H. apply invert_lookup in H.
  destruct (validate_entries_shifted (keyboard_layouts_default settings)
              {| visited := visited_init;
                 keyToShiftedKey := keyboard_layouts_default settings;
                 warnings := [] |} visited_init_ok) as [Hd | [Hk Hall]].
  - rewrite Hd in H.
    pose proof defaultKeyPairs_shifted as Hall.
    rewrite List.Forall_forall in Hall. by apply (Hall (k, x)).
  - rewrite Hk in H. simpl in H.
    rewrite List.Forall_forall in Hall. by apply (Hall (k, x)).
Qed.

(** The default layout is accepted as it is, without a warning. *)
Example default_layout_accepted :
  layout_keyToShiftedKey (buildShiftedKeyToKey default_settings) = defaultKeyPairs
  /\ layout_warnings (buildShiftedKeyToKey default_settings) = [].
Proof. split; reflexivity. Qed.

(** C8: for every key [k] of the built-in default layout, the shifted key
    [v] the layout gives for [k] is known to the handler and its unshifted
    key is [k] again: [getUnshiftedKey(keyToShiftedKey[k]) = k]. *)
Theorem default_layout_round_trip (settings : GlobalSettings) (k v : string) :
  layout_keyToShiftedKey (buildShiftedKeyToKey settings) = defaultKeyPairs ->
  In (k, v) defaultKeyPairs ->
  hasUnshiftedKey (layout_shiftedKeyToKey (buildShiftedKeyToKey settings)) v = true
  /\ getUnshiftedKey (layout_shiftedKeyToKey (buildShiftedKeyToKey settings)) v = Some k.
Proof.
  intros Hd Hin.
  assert (layout_shiftedKeyToKey (buildShiftedKeyToKey settings)
          = invert defaultKeyPairs) as ->.
  { unfold buildShiftedKeyToKey in *. simpl in *. by rewrite Hd. }
  unfold defaultKeyPairs in Hin. simpl in Hin.
  repeat (destruct Hin as [[= <- <-]|Hin]; [split; vm_compute; reflexivity |]).
  destruct Hin.
Qed.

Lemma default_layout_round_trip_witness :
  hasUnshiftedKey (layout_shiftedKeyToKey (buildShiftedKeyToKey default_settings)) "@" = true
  /\ getUnshiftedKey (layout_shiftedKeyToKey (buildShiftedKeyToKey default_settings)) "@"
     = Some "2".
Proof.
  apply (default_layout_round_trip default_settings "2" "@").
  - reflexivity.
  - simpl. tauto.
Defined.

(** C4, at the input where the code departs from it: the configured layout
    [{ constructor: "!" }] has a key outside [MappableKeys], yet no round of
    the validation rejects it, because [visited["constructor"]] is the
    built-in member every object inherits and not [undefined].  The layout is
    kept, without a warning, and the inverse map sends ["!"] to
    ["constructor"]. *)
Theorem inherited_key_survives :
  let settings := settings_with [("constructor", "!")] (fun _ => None) in
  ~ In "constructor" MappableKeys
  /\ layout_keyToShiftedKey (buildShiftedKeyToKey settings) = [("constructor", "!")]
  /\ layout_keyToShiftedKey (buildShiftedKeyToKey settings) <> defaultKeyPairs
  /\ layout_shiftedKeyToKey (buildShiftedKeyToKey settings) !! "!" = Some "constructor"
  /\ layout_shiftedKeyToKey (buildShiftedKeyToKey settings) !! "!"
     <> invert defaultKeyPairs !! "!"
  /\ layout_warnings (buildShiftedKeyToKey settings) = [].
Proof.
  cbv zeta. split; [| split; [| split; [| split; [| split]]]].
  - unfold MappableKeys. simpl. intros H.
    repeat (destruct H as [H|H]; [discriminate H |]). destruct H.
  - reflexivity.
  - vm_compute. discriminate.
  - vm_compute. reflexivity.
  - vm_compute. discriminate.
  - reflexivity.
Qed.

(** ** The keydown listener *)

Lemma includes_spec (keys : list string) (text : string) :
  includes keys text = true <-> In text keys.
Proof.
  unfold includes. rewrite existsb_exists. split.
  - intros (x & Hx & Heq). apply String.eqb_eq in Heq. by subst.
  - intros Hin. exists text. split; [done | apply String.eqb_refl].
Qed.

Lemma getUnshiftedKey_label (m : gmap string string) (k : string) :
  inherited k = false -> exists s, getUnshiftedKey m k = Some s.
Proof.
  intros Hk. unfold getUnshiftedKey, js_get. rewrite Hk.
  destruct (m !! k); by eauto.
Qed.

Lemma hasUnshiftedKey_label (m : gmap string string) (k : string) :
  inherited k = false -> hasUnshiftedKey m k = true -> is_Some (m !! k).
Proof.
  intros Hk. unfold hasUnshiftedKey, js_get. rewrite Hk.
  destruct (m !! k); [by eauto | done].
Qed.

Lemma mappable_not_modifier (k : string) :
  In k MappableKeys ->
  forallb (fun am : string * string => negb (String.eqb k (fst am)))
    (specialKeys ++ shiftKeys) = true.
Proof.
  intros Hin. unfold MappableKeys in Hin. simpl in Hin.
  repeat (destruct Hin as [<-|Hin]; [reflexivity |]). destruct Hin.
Qed.

Section KeyHandlerFacts.

Variable nonLiteralKeys : string -> option string.
Variable translateKey : string -> string.
Variable addModifier : string -> string -> string.

Local Abbreviation composed := (compose translateKey addModifier).
Local Abbreviation text_of := (keydown_text translateKey addModifier).
Local Abbreviation is_translatable := (translatable nonLiteralKeys).
Local Abbreviation listener := (keydown nonLiteralKeys translateKey addModifier).
Local Abbreviation handler :=
  (KeyHandler_keydown nonLiteralKeys translateKey addModifier).

(** With [Shift] among the modifiers it is the last one tested. *)
Lemma compose_with_shift (evt : KeyboardEvent) (k : string) :
  composed evt (specialKeys ++ shiftKeys) k
  = if getModifierState evt "Shift"
    then addModifier "S" (composed evt specialKeys k)
    else composed evt specialKeys k.
Proof. unfold compose. by rewrite fold_left_app. Qed.

(** The text composed over [specialKeys] only reads the state of [Alt],
    [Control], [OS] and [Meta]. *)
Lemma compose_without_shift (evt evt' : KeyboardEvent) (k : string) :
  (forall name, name <> "Shift" ->
                getModifierState evt' name = getModifierState evt name) ->
  composed evt' specialKeys k = composed evt specialKeys k.
Proof.
  intros H. unfold compose. simpl.
  by rewrite !H by discriminate.
Qed.

Lemma keydown_text_ok (settings : GlobalSettings) (m : gmap string string)
    (evt : KeyboardEvent) :
  exists text, text_of settings m evt = Ok text.
Proof.
  unfold keydown_text.
  destruct (keeps_shifted settings m evt); [by eauto |].
  destruct (getUnshiftedKey_label m (key evt) (key_is_label evt)) as [s ->].
  by eauto.
Qed.

(** C7: for a trusted, translatable event the suppression list is the
    ignore list of the current mode (none if the mode has no list) followed
    by the list of [all]; a text of that list is not emitted and the event
    is left alone, any other text is emitted and the event's default action
    and propagation are stopped. *)
Theorem ignore_list_filter (settings : GlobalSettings)
    (m : gmap string string) (currentMode : option NvimMode)
    (evt : KeyboardEvent) :
  alt_declined settings evt = false ->
  is_translatable evt = true ->
  exists text,
    text_of settings m evt = Ok text
    /\ ignored_keys settings currentMode
       = (default [] (currentMode ≫= ignoreKeys settings)
          ++ default [] (ignoreKeys settings m_all))%list
    /\ (In text (ignored_keys settings currentMode) ->
        listener settings m currentMode evt
        = Ok {| emitted := []; defaultPrevented := false;
                propagationStopped := false |})
    /\ (~ In text (ignored_keys settings currentMode) ->
        listener settings m currentMode evt
        = Ok {| emitted := [text]; defaultPrevented := true;
                propagationStopped := true |}).
Proof.
  intros Ealt Etr.
  destruct (keydown_text_ok settings m evt) as [text Htext].
  exists text. split; [done |]. split.
  { unfold ignored_keys.
    destruct (currentMode ≫= ignoreKeys settings),
             (ignoreKeys settings m_all); simpl; by rewrite ?app_nil_r. }
  unfold keydown. rewrite Ealt, Etr, Htext. simpl.
  split; intros Hin.
  - apply includes_spec in Hin. by rewrite Hin.
  - destruct (includes (ignored_keys settings currentMode) text) eqn:E; [| done].
    apply includes_spec in E. done.
Qed.

Lemma keeps_shifted_spec (settings : GlobalSettings) (m : gmap string string)
    (evt : KeyboardEvent) :
  keeps_shifted settings m evt = true
  <-> hasUnshiftedKey m (key evt) = true /\ ~ flagged settings evt.
Proof.
  unfold keeps_shifted, flagged.
  destruct (hasUnshiftedKey m (key evt)), (shiftKey evt), (altKey evt),
    (ctrlKey evt), (shiftAlt settings), (shiftCtrl settings),
    (shiftAltCtrl settings); simpl; intuition congruence.
Qed.

(** C2, as the code has it: for a trusted keydown event whose only active
    modifier is [Shift] and whose key is a shifted key of the active layout,
    the text is the raw shifted key, translated, with no [Shift] prefix and
    no other prefix, whatever the three shift flags are; it is emitted
    unless the ignore list has it. *)
Theorem shift_only_keeps_raw_key (settings : GlobalSettings)
    (currentMode : option NvimMode) (evt : KeyboardEvent) :
  isTrusted evt = true ->
  shiftKey evt = true ->
  altKey evt = false -> ctrlKey evt = false -> metaKey evt = false ->
  Forall (fun am : string * string => getModifierState evt (fst am) = false)
    specialKeys ->
  hasUnshiftedKey (layout_shiftedKeyToKey (buildShiftedKeyToKey settings))
    (key evt) = true ->
  handler settings currentMode evt
  = Ok (if includes (ignored_keys settings currentMode) (translateKey (key evt))
        then no_effect else emit_input (translateKey (key evt))).
Proof.
  intros Htr Hs Ha Hc Hm Hstate Hhas.
  assert (In (key evt) MappableKeys) as Hin.
  { apply hasUnshiftedKey_label in Hhas as [k Hk]; [| apply key_is_label].
    by apply shiftedKeyToKey_mappable in Hk. }
  unfold KeyHandler_keydown, keydown.
  assert (alt_declined (settings_after_build settings) evt = false) as ->.
  { unfold alt_declined. by rewrite Ha. }
  assert (is_translatable evt = true) as ->.
  { unfold translatable. rewrite Htr, Hs, (mappable_not_modifier _ Hin). simpl.
    apply orb_true_r. }
  assert (keeps_shifted (settings_after_build settings)
            (layout_shiftedKeyToKey (buildShiftedKeyToKey settings)) evt = true) as Hk.
  { unfold keeps_shifted. rewrite Hhas, Hs, Ha, Hc. reflexivity. }
  unfold keydown_text. rewrite Hk. simpl.
  assert (composed evt specialKeys (key evt) = translateKey (key evt)) as ->.
  { unfold compose, specialKeys in *.
    repeat match goal with
           | H : Forall _ (_ :: _) |- _ => apply Forall_cons in H as [? H]
           end.
    simpl in *. by repeat match goal with H : getModifierState _ _ = _ |- _ =>
                                            rewrite H; clear H end. }
  by destruct (includes _ _).
Qed.

End KeyHandlerFacts.

(** With the default settings, [Control]+[Shift]+[@] goes out as the
    unshifted key with both modifiers ([shiftCtrl] is set). *)
Example ctrl_shift_at_default :
  KeyHandler_keydown spec_nonLiteralKeys spec_translateKey spec_addModifier
    default_settings (Some m_normal) ctrl_shift_at
  = Ok (emit_input "<SC-2>").
Proof. vm_compute. reflexivity. Qed.

(** With the layout [{ constructor: "!" }], which the validation lets
    through, [Control]+[Shift]+[!] goes out under the name of the key that
    layout gives it. *)
Example ctrl_shift_bang_inherited :
  KeyHandler_keydown spec_nonLiteralKeys spec_translateKey spec_addModifier
    (settings_with [("constructor", "!")] (fun _ => None)) (Some m_normal)
    (trusted_keydown "!" eq_refl true false true false)
  = Ok (emit_input "<SC-constructor>").
Proof. vm_compute. reflexivity. Qed.

(** [Control]+[Shift]+[@] with its text on the ignore list of [all]. *)
Example ctrl_shift_at_ignored :
  KeyHandler_keydown spec_nonLiteralKeys spec_translateKey spec_addModifier
    settings_ignoring (Some m_normal) ctrl_shift_at
  = Ok no_effect.
Proof. vm_compute. reflexivity. Qed.

Lemma ignore_list_filter_witness :
  exists text,
    keydown_text spec_translateKey spec_addModifier settings_ignoring
      (layout_shiftedKeyToKey (buildShiftedKeyToKey settings_ignoring))
      ctrl_shift_at = Ok text
    /\ ignored_keys settings_ignoring (Some m_normal) = ["<C-@>"; "<SC-2>"].
Proof.
  destruct (ignore_list_filter spec_nonLiteralKeys spec_translateKey
              spec_addModifier settings_ignoring
              (layout_shiftedKeyToKey (buildShiftedKeyToKey settings_ignoring))
              (Some m_normal) ctrl_shift_at eq_refl eq_refl)
    as (text & H1 & H2 & _).
  exists text. split; [assumption | exact H2].
Defined.

Lemma shift_only_keeps_raw_key_witness :
  KeyHandler_keydown spec_nonLiteralKeys spec_translateKey spec_addModifier
    default_settings None shift_at
  = Ok (emit_input "@").
Proof.
  apply (shift_only_keeps_raw_key spec_nonLiteralKeys spec_translateKey
           spec_addModifier default_settings None shift_at);
    try reflexivity.
  repeat constructor.
Defined.

(** C2 as stated fails.  With [Shift] alone on the key [@], a shifted key of
    the default layout whose unshifted key is [2], the handler emits [@]:
    not [<S-2>] when the three flags are false, and with no Control-family
    prefix when they are true. *)
Lemma shift_only_counterexample :
  isTrusted shift_at = true
  /\ (shiftKey shift_at, altKey shift_at, ctrlKey shift_at, metaKey shift_at)
     = (true, false, false, false)
  /\ hasUnshiftedKey
       (layout_shiftedKeyToKey (buildShiftedKeyToKey (settings_with_shift_flags false)))
       (key shift_at) = true
  /\ getUnshiftedKey
       (layout_shiftedKeyToKey (buildShiftedKeyToKey (settings_with_shift_flags false)))
       (key shift_at) = Some "2"
  /\ KeyHandler_keydown spec_nonLiteralKeys spec_translateKey spec_addModifier
       (settings_with_shift_flags false) None shift_at
     = Ok (emit_input "@")
  /\ KeyHandler_keydown spec_nonLiteralKeys spec_translateKey spec_addModifier
       (settings_with_shift_flags false) None shift_at
     <> Ok (emit_input "<S-2>")
  /\ KeyHandler_keydown spec_nonLiteralKeys spec_translateKey spec_addModifier
       (settings_with_shift_flags true) None shift_at
     = Ok (emit_input "@").
Proof.
  repeat split; try (vm_compute; reflexivity).
  vm_compute. discriminate.
Qed.

(** ** The loaded configuration *)

(** Reading the global settings before the configuration is loaded raises
    the error the program words itself. *)
Lemma getGlobalConf_before_ready :
  getGlobalConf None = Throw (Error "getGlobalConf called before config was ready").
Proof. reflexivity. Qed.

(** A loaded configuration without a site table: the resolver raises its
    own error, whatever the URL. *)
Lemma getConfForUrl_without_site_table (RegExp : string -> option (string -> bool))
    (c : IConfig) (url : string) :
  localSettings c = None ->
  getConfForUrl RegExp (Some c) url = Throw (Error settings_undefined_message).
Proof. intros H. unfold getConfForUrl. by rewrite H. Qed.

(** C9, at the input where the code departs from it: while [conf] is still
    [undefined] the resolver fails on [conf.localSettings], a [TypeError] of
    the engine, before it reaches the test that raises the worded error;
    [getGlobalConf], in the same state, raises its worded error. *)
Theorem getConfForUrl_before_ready (RegExp : string -> option (string -> bool))
    (url : string) :
  getConfForUrl RegExp None url = Throw TypeError
  /\ getConfForUrl RegExp None url <> Throw (Error settings_undefined_message)
  /\ (forall msg, getConfForUrl RegExp None url <> Throw (Error msg))
  /\ getGlobalConf None = Throw (Error "getGlobalConf called before config was ready").
Proof. repeat split; intros; discriminate. Qed.

(** ** The resolver *)

Lemma insert_by_priority_perm (e : string * ISiteConfig)
    (l : list (string * ISiteConfig)) :
  Permutation (e :: l) (insert_by_priority e l).
Proof.
  induction l as [|e' l IH]; simpl; [done |].
  destruct (or1 (priority (snd e)) <=? or1 (priority (snd e'))); [done |].
  rewrite perm_swap. by constructor.
Qed.

Lemma sort_by_priority_perm (l : list (string * ISiteConfig)) :
  Permutation l (sort_by_priority l).
Proof.
  induction l as [|e l IH]; simpl; [done |].
  rewrite <- insert_by_priority_perm. by constructor.
Qed.

Lemma insert_by_priority_sorted (e : string * ISiteConfig)
    (l : list (string * ISiteConfig)) :
  Sorted priority_le l -> Sorted priority_le (insert_by_priority e l).
Proof.
  induction l as [|e' l IH]; intros Hs; simpl.
  - repeat constructor.
  - destruct (Z.leb_spec (or1 (priority (snd e))) (or1 (priority (snd e')))) as [Hle|Hgt].
    + constructor; [done |]. by constructor.
    + apply Sorted_inv in Hs as [Hs Hhd].
      constructor; [by apply IH |].
      destruct l as [|e'' l]; simpl.
      * constructor. unfold priority_le. lia.
      * destruct (or1 (priority (snd e)) <=? or1 (priority (snd e''))).
        -- constructor. unfold priority_le. lia.
        -- constructor. by apply HdRel_inv in Hhd.
Qed.

Lemma sort_by_priority_sorted (l : list (string * ISiteConfig)) :
  Sorted priority_le (sort_by_priority l).
Proof.
  induction l as [|e l IH]; simpl; [constructor |].
  by apply insert_by_priority_sorted.
Qed.

(** Entries of equal priority keep their order: the sort of a list that is
    already in ascending order is that list. *)
Lemma sort_by_priority_stable (l : list (string * ISiteConfig)) :
  Sorted priority_le l -> sort_by_priority l = l.
Proof.
  induction l as [|e l IH]; intros Hs; simpl; [done |].
  apply Sorted_inv in Hs as [Hs Hhd]. rewrite IH by done.
  destruct l as [|e' l]; simpl; [done |].
  apply HdRel_inv in Hhd. unfold priority_le in Hhd.
  by destruct (Z.leb_spec (or1 (priority (snd e))) (or1 (priority (snd e')))); [| lia].
Qed.

(** The fold of [Object.assign], one field at a time. *)
Lemma assign_fold_field {A : Type} (field : ISiteConfig -> option A)
    (l : list (string * ISiteConfig)) (init : ISiteConfig) :
  (forall acc cur, field (assign acc cur) = from_option Some (field acc) (field cur)) ->
  field (foldl (fun acc e => assign acc (snd e)) init l)
  = foldl (fun acc e => from_option Some acc (field (snd e))) (field init) l.
Proof.
  intros Hf. revert init. induction l as [|e l IH]; intros init; simpl; [done |].
  by rewrite IH, Hf.
Qed.

Lemma fold_field_none {A : Type} (field : ISiteConfig -> option A)
    (l : list (string * ISiteConfig)) (o : option A) :
  Forall (fun e => field (snd e) = None) l ->
  foldl (fun acc e => from_option Some acc (field (snd e))) o l = o.
Proof.
  revert o. induction l as [|e l IH]; intros o Hall; simpl; [done |].
  apply Forall_cons in Hall as [He Hall]. by rewrite He, IH.
Qed.

Lemma assign_fold_last_wins {A : Type} (field : ISiteConfig -> option A)
    (l : list (string * ISiteConfig)) :
  (forall acc cur, field (assign acc cur) = from_option Some (field acc) (field cur)) ->
  field empty_site_config = None ->
  last_wins field l (foldl (fun acc e => assign acc (snd e)) empty_site_config l).
Proof.
  intros Hf Hinit. split.
  - intros l1 e l2 v -> He Hall.
    rewrite (assign_fold_field field _ _ Hf), foldl_app. simpl.
    by rewrite He, fold_field_none.
  - intros Hall. by rewrite (assign_fold_field field _ _ Hf), fold_field_none.
Qed.

(** The order of the sort, with the default priority written out. *)
Lemma sort_by_priority_ascending (l : list (string * ISiteConfig)) :
  StronglySorted
    (fun e1 e2 => default 1 (priority (snd e1)) <= default 1 (priority (snd e2)))
    (sort_by_priority l).
Proof.
  apply Sorted_StronglySorted; [intros x y z; lia |].
  eapply Sorted_ind with (P := Sorted _); [constructor | | apply sort_by_priority_sorted].
  intros e l' _ Hs Hhd. constructor; [done |].
  destruct Hhd as [|e' l'' Hle]; constructor.
  unfold priority_le in Hle. by destruct (priority (snd e)), (priority (snd e')).
Qed.

Section SiteConfigResolverFacts.

Variable RegExp : string -> option (string -> bool).

Lemma filter_matching_ok (url : string) (entries : list (string * ISiteConfig)) :
  Forall (fun e => is_Some (RegExp (fst e))) entries ->
  filter_matching RegExp url entries
  = Ok (List.filter (matches_url RegExp url) entries).
Proof.
  induction entries as [|e entries IH]; intros Hall; simpl; [done |].
  apply Forall_cons in Hall as [[test He] Hall].
  unfold matches_url at 1. rewrite He, IH by done. simpl.
  by destruct (test url).
Qed.

(** A key that is not a pattern makes the resolver throw. *)
Lemma filter_matching_throws (url : string) (entries : list (string * ISiteConfig)) :
  Exists (fun e => RegExp (fst e) = None) entries ->
  filter_matching RegExp url entries = Throw SyntaxError.
Proof.
  induction entries as [|e entries IH]; intros Hex; simpl.
  - by apply Exists_nil in Hex.
  - destruct (RegExp (fst e)) as [test|] eqn:He; [| done].
    apply Exists_cons in Hex as [Hex | Hex]; [congruence |].
    by rewrite IH.
Qed.

(** C3: the resolver keeps the entries of the site table whose key, as a
    pattern, matches the URL, puts them in ascending order of priority, a
    missing priority counting as 1, and folds them in that order: every field
    of the result is the one of the last entry, in that order, that has it,
    and is missing if no matching entry has it.  A key that is no pattern
    makes the call throw the engine's [SyntaxError].  With [.*] (priority 0,
    canvas) and [example\.com] (priority 10, html), in either order in the
    table, the renderer for [http://example.com] is html and the one for
    [http://other.com] is canvas. *)
Theorem getConfForUrl_resolves :
  (forall (c : IConfig) (entries : list (string * ISiteConfig)) (url : string),
     localSettings c = Some entries ->
     (Exists (fun e => RegExp (fst e) = None) entries ->
      getConfForUrl RegExp (Some c) url = Throw SyntaxError)
     /\ (Forall (fun e => is_Some (RegExp (fst e))) entries ->
         exists sorted resolved,
           getConfForUrl RegExp (Some c) url = Ok resolved
           /\ Permutation (List.filter (matches_url RegExp url) entries) sorted
           /\ StronglySorted
                (fun e1 e2 => default 1 (priority (snd e1))
                              <= default 1 (priority (snd e2))) sorted
           /\ resolved = foldl (fun acc e => assign acc (snd e)) empty_site_config sorted
           /\ last_wins cmdline sorted resolved
           /\ last_wins content sorted resolved
           /\ last_wins priority sorted resolved
           /\ last_wins renderer sorted resolved
           /\ last_wins selector sorted resolved
           /\ last_wins takeover sorted resolved
           /\ last_wins filename sorted resolved))
  /\ (forall (everything example : string -> bool) (c : IConfig)
             (table : list (string * ISiteConfig)),
        RegExp ".*" = Some everything ->
        RegExp "example\.com" = Some example ->
        everything "http://example.com" = true ->
        everything "http://other.com" = true ->
        example "http://example.com" = true ->
        example "http://other.com" = false ->
        localSettings c = Some table ->
        Permutation example_entries table ->
        (exists resolved,
           getConfForUrl RegExp (Some c) "http://example.com" = Ok resolved
           /\ renderer resolved = Some "html")
        /\ (exists resolved,
              getConfForUrl RegExp (Some c) "http://other.com" = Ok resolved
              /\ renderer resolved = Some "canvas")).
Proof.
  split.
  - intros c entries url Hc. split.
    { intros Hex. unfold getConfForUrl. by rewrite Hc, filter_matching_throws. }
    intros Hall.
    exists (sort_by_priority (List.filter (matches_url RegExp url) entries)).
    eexists. split.
    { unfold getConfForUrl. rewrite Hc, filter_matching_ok by done. reflexivity. }
    split; [apply sort_by_priority_perm |].
    split; [apply sort_by_priority_ascending |].
    split; [done |].
    repeat split; by apply assign_fold_last_wins.
  - intros everything example c table Hany Hex H1 H2 H3 H4 Hc Hperm.
    unfold getConfForUrl. rewrite Hc.
    apply Permutation_length_2_inv in Hperm as [-> | ->]; simpl;
      rewrite Hany, Hex, H1, H2, H3, H4; simpl; split; eexists; by split.
Qed.

End SiteConfigResolverFacts.

Example RegExp_fragment_example :
  (fun test => (test "http://example.com", test "http://other.com"))
    <$> RegExp_fragment "example\.com"
  = Some (true, false).
Proof. reflexivity. Qed.

Lemma getConfForUrl_resolves_witness :
  (exists sorted resolved,
     getConfForUrl RegExp_fragment (Some example_conf_reversed) "http://example.com"
     = Ok resolved
     /\ Permutation [ ("example\.com", site_entry 10 "html");
                      (".*", site_entry 0 "canvas") ] sorted
     /\ StronglySorted
          (fun e1 e2 => default 1 (priority (snd e1))
                        <= default 1 (priority (snd e2))) sorted
     /\ resolved = foldl (fun acc e => assign acc (snd e)) empty_site_config sorted
     /\ last_wins renderer sorted resolved)
  /\ getConfForUrl RegExp_fragment (Some broken_conf) "http://example.com"
     = Throw SyntaxError
  /\ (exists resolved,
        getConfForUrl RegExp_fragment (Some example_conf) "http://example.com" = Ok resolved
        /\ renderer resolved = Some "html")
  /\ (exists resolved,
        getConfForUrl RegExp_fragment (Some example_conf) "http://other.com" = Ok resolved
        /\ renderer resolved = Some "canvas")
  /\ (exists resolved,
        getConfForUrl RegExp_fragment (Some example_conf_reversed) "http://example.com"
        = Ok resolved
        /\ renderer resolved = Some "html")
  /\ (exists resolved,
        getConfForUrl RegExp_fragment (Some example_conf_reversed) "http://other.com"
        = Ok resolved
        /\ renderer resolved = Some "canvas").
Proof.
  destruct (getConfForUrl_resolves RegExp_fragment) as [Hgeneral Hexample].
  split; [| split].
  - destruct (Hgeneral example_conf_reversed _ "http://example.com" eq_refl)
      as [_ Hok].
    destruct Hok as (sorted & resolved & H1 & H2 & H3 & H4 & _ & _ & _ & H5 & _).
    + repeat constructor; vm_compute; eexists; reflexivity.
    + exists sorted, resolved.
      split; [exact H1 |]. split; [exact H2 |]. split; [exact H3 |].
      split; [exact H4 | exact H5].
  - destruct (Hgeneral broken_conf _ "http://example.com" eq_refl) as [Hthrow _].
    apply Hthrow. apply Exists_cons_tl, Exists_cons_hd. reflexivity.
  - destruct (Hexample _ _ example_conf _ eq_refl eq_refl eq_refl eq_refl eq_refl eq_refl
                eq_refl (Permutation_refl _)) as [Ha Hb].
    destruct (Hexample _ _ example_conf_reversed _ eq_refl eq_refl eq_refl eq_refl eq_refl
                eq_refl eq_refl (perm_swap _ _ _)) as [Hc Hd].
    split; [exact Ha |]. split; [exact Hb |]. split; [exact Hc | exact Hd].
Defined.

(** ** The defaulting merge *)

Lemma makeDefaults_accepts (obj : value) (name : string) (d : value) :
  makeDefaults obj name d
  = cur ← get_prop obj name; if accepts cur d then Ok obj else set_prop obj name d.
Proof.
  unfold makeDefaults, accepts. destruct (get_prop obj name) as [cur|]; simpl; [| done].
  destruct (is_undefined_value cur); simpl; [done |].
  destruct (String.eqb (typeof cur) (typeof d)); simpl; [| done].
  by destruct (Bool.eqb (isArray cur) (isArray d)).
Qed.

Lemma with_props_id (obj : value) (props : gmap string value) :
  props_of obj = Some props -> with_props obj props = obj.
Proof. destruct obj; simpl; congruence. Qed.

Lemma props_of_with_props (obj : value) (props props' : gmap string value) :
  props_of obj = Some props -> props_of (with_props obj props') = Some props'.
Proof. by destruct obj. Qed.

Lemma with_props_twice (obj : value) (props props' : gmap string value) :
  with_props (with_props obj props) props' = with_props obj props'.
Proof. by destruct obj. Qed.

Lemma accepts_with_props (obj d : value) (props props' : gmap string value) :
  props_of obj = Some props -> accepts (with_props obj props') d = accepts obj d.
Proof. by destruct obj. Qed.

Lemma accepts_defined (d : value) (props : gmap string value) (name : string) :
  accepts (default VUndefined (props !! name)) d = true ->
  props !! name = Some (default VUndefined (props !! name)).
Proof. by destruct (props !! name). Qed.

Lemma makeDefaults_step (obj : value) (name : string) (d : value) :
  makeDefaults obj name d = step name (leaf d) obj.
Proof.
  rewrite makeDefaults_accepts. unfold step, leaf.
  destruct obj as [| | | | |items props|props]; simpl; try done.
  - destruct (accepts _ d) eqn:E; [| done].
    apply accepts_defined in E. by rewrite insert_id.
  - destruct (accepts _ d) eqn:E; [| done].
    apply accepts_defined in E. by rewrite insert_id.
Qed.

Lemma in_prop_step (obj : value) (name : string) (body : value -> result value) :
  fails_by_type body -> in_prop obj name body = step name body obj.
Proof.
  intros Hb. unfold in_prop, step.
  destruct obj as [| | | | |items props|props]; simpl; try done.
  all: destruct (body VUndefined) as [c|e] eqn:E; simpl; [done |].
  all: by rewrite (Hb _ _ E).
Qed.

Lemma in_prop_ext (obj : value) (name : string) (body body' : value -> result value) :
  (forall c, body c = body' c) -> in_prop obj name body = in_prop obj name body'.
Proof. intros H. unfold in_prop. destruct (get_prop obj name); simpl; by rewrite ?H. Qed.

Lemma bind_ext {A B : Type} (r : result A) (k k' : A -> result B) :
  (forall a, k a = k' a) -> r ≫= k = r ≫= k'.
Proof. intros H. destruct r; simpl; by rewrite ?H. Qed.

(** Two updates of the same field are one. *)
Lemma step_step (obj : value) (name : string) (u1 u2 : value -> result value) :
  step name u1 obj ≫= step name u2 = step name (fun c => u1 c ≫= u2) obj.
Proof.
  unfold step. destruct (props_of obj) as [props|] eqn:E; [| done].
  destruct (u1 _) as [c1|]; simpl; [| done].
  rewrite (props_of_with_props _ _ _ E), lookup_insert_eq. simpl.
  destruct (u2 c1); simpl; [| done].
  by rewrite with_props_twice, insert_insert_eq.
Qed.

Lemma run_throw (steps : list (string * (value -> result value))) (e : exn) :
  foldl (fun acc s => obj ← acc; step (fst s) (snd s) obj) (Throw e) steps = Throw e.
Proof. induction steps; simpl; done. Qed.

Lemma run_cons (s : string * (value -> result value))
    (steps : list (string * (value -> result value))) (obj : value) :
  run (s :: steps) obj = step (fst s) (snd s) obj ≫= run steps.
Proof.
  unfold run. simpl. destruct (step (fst s) (snd s) obj); simpl; [done |].
  apply run_throw.
Qed.

Lemma step_fails_by_type (name : string) (update : value -> result value) :
  fails_by_type update -> fails_by_type (step name update).
Proof.
  intros Hu obj e. unfold step. destruct (props_of obj); [| congruence].
  destruct (update _) eqn:E; simpl; [done |]. intros [= <-]. by eapply Hu.
Qed.

Lemma run_fails_by_type (steps : list (string * (value -> result value))) :
  Forall (fun s => fails_by_type (snd s)) steps -> fails_by_type (run steps).
Proof.
  induction steps as [|s steps IH]; intros Hall obj e.
  - done.
  - apply Forall_cons in Hall as [Hs Hall]. rewrite run_cons.
    destruct (step (fst s) (snd s) obj) eqn:E; simpl.
    + by apply IH.
    + intros [= <-]. by eapply step_fails_by_type.
Qed.

Lemma leaf_fails_by_type (d : value) : fails_by_type (leaf d).
Proof. intros c e. unfold leaf. done. Qed.

Lemma node_fails_by_type (d : value) (steps : list (string * (value -> result value))) :
  Forall (fun s => fails_by_type (snd s)) steps -> fails_by_type (node d steps).
Proof. intros Hall c e. unfold node. by apply run_fails_by_type. Qed.

(** A defaulted field with fields below: the call of [makeDefaults] on it
    followed by the calls on its fields. *)
Lemma node_step (obj : value) (name : string) (d : value)
    (steps : list (string * (value -> result value))) :
  Forall (fun s => fails_by_type (snd s)) steps ->
  makeDefaults obj name d ≫= (fun obj => in_prop obj name (run steps))
  = step name (node d steps) obj.
Proof.
  intros Hall. rewrite makeDefaults_step.
  rewrite (bind_ext _ _ (step name (run steps))).
  - rewrite step_step. unfold step, node, leaf.
    by destruct (props_of obj).
  - intros o. apply in_prop_step. by apply run_fails_by_type.
Qed.

Lemma bind_assoc {A B C : Type} (r : result A) (f : A -> result B) (g : B -> result C) :
  (r ≫= f) ≫= g = r ≫= (fun a => f a ≫= g).
Proof. by destruct r. Qed.

Lemma bind_Ok {A : Type} (r : result A) : r ≫= Ok = r.
Proof. by destruct r. Qed.

Lemma run_nil (obj : value) : run [] obj = Ok obj.
Proof. done. Qed.

Lemma run_one (name : string) (update : value -> result value) (obj : value) :
  run [(name, update)] obj = step name update obj.
Proof. rewrite run_cons. simpl. apply bind_Ok. Qed.

Lemma makeDefaults_fold (l : list (string * value)) (acc : result value) :
  foldl (fun acc kv => entry ← acc; makeDefaults entry (fst kv) (snd kv)) acc l
  = foldl (fun acc s => obj ← acc; step (fst s) (snd s) obj) acc
      ((fun kv => (fst kv, leaf (snd kv))) <$> l).
Proof.
  revert acc. induction l as [|kv l IH]; intros acc; simpl; [done |].
  rewrite IH. f_equal. apply bind_ext. intros o. apply makeDefaults_step.
Qed.

Lemma all_leaves_fail_by_type (l : list (string * value)) :
  Forall (fun s : string * (value -> result value) => fails_by_type (snd s))
    ((fun kv => (fst kv, leaf (snd kv))) <$> l).
Proof. induction l; constructor; [apply leaf_fails_by_type | done]. Qed.

Lemma globalSettings_schema_fails_by_type (os : string) :
  Forall (fun s : string * (value -> result value) => fails_by_type (snd s))
    (globalSettings_schema os).
Proof.
  unfold globalSettings_schema.
  repeat (constructor; [first [apply leaf_fails_by_type | apply node_fails_by_type] |]).
  all: repeat constructor; apply leaf_fails_by_type.
Qed.


Ltac leaf_call :=
  rewrite run_cons; cbn [fst snd]; rewrite <- makeDefaults_step;
  apply bind_ext; intros ?.

Lemma mergeWithDefaults_schema (os : string) (settings : value) :
  mergeWithDefaults os settings
  = run (settings_schema os)
      (if is_undefined_value settings then VObject ∅ else settings).
Proof.
  unfold mergeWithDefaults, settings_schema.
  set (s0 := if is_undefined_value settings then VObject ∅ else settings).
  rewrite run_cons. cbn [fst snd].
  rewrite <- node_step by apply globalSettings_schema_fails_by_type.
  rewrite bind_assoc. apply bind_ext. intros s1.
  rewrite (in_prop_ext _ _ _ (run (globalSettings_schema os))).
  - apply bind_ext. intros s2. rewrite run_one.
    rewrite <- node_step.
    2:{ repeat constructor. apply node_fails_by_type, all_leaves_fail_by_type. }
    apply bind_ext. intros s3. unfold makeDefaultLocalSetting.
    apply in_prop_ext. intros ls. unfold localSettings_schema. rewrite run_one.
    rewrite <- node_step by apply all_leaves_fail_by_type.
    apply bind_ext. intros ls1. apply in_prop_ext. intros entry.
    apply makeDefaults_fold.
  - intros g. unfold globalSettings_schema.
    do 7 leaf_call.
    rewrite run_cons. cbn [fst snd].
    rewrite <- node_step by (repeat constructor; apply leaf_fails_by_type).
    rewrite bind_assoc. apply bind_ext. intros ?.
    rewrite (in_prop_ext _ _ _ (run keyboard_layouts_schema)).
    2:{ intros layouts. unfold keyboard_layouts_schema. rewrite run_one.
        apply makeDefaults_step. }
    apply bind_ext. intros ?.
    do 4 leaf_call.
    rewrite run_one, <- makeDefaults_step.
    by destruct (String.eqb os "mac").
Qed.

Lemma step_Ok (name : string) (update : value -> result value) (obj obj' : value) :
  step name update obj = Ok obj' ->
  exists props c,
    props_of obj = Some props
    /\ update (default VUndefined (props !! name)) = Ok c
    /\ obj' = with_props obj (<[name := c]> props).
Proof.
  unfold step. destruct (props_of obj) as [props|]; [| done].
  destruct (update _) as [c|] eqn:E; simpl; [| done].
  intros [= <-]. by eauto.
Qed.

(** What a run of steps on distinct fields does: each step sees the field
    as it was at the start and leaves its result there; no other field
    changes. *)
Lemma run_props (steps : list (string * (value -> result value)))
    (obj obj' : value) (props : gmap string value) :
  props_of obj = Some props ->
  NoDup (fst <$> steps) ->
  run steps obj = Ok obj' ->
  exists props',
    obj' = with_props obj props'
    /\ (forall name update, In (name, update) steps ->
          exists c, update (default VUndefined (props !! name)) = Ok c
                    /\ props' !! name = Some c)
    /\ (forall name, name ∉ fst <$> steps -> props' !! name = props !! name).
Proof.
  revert obj props. induction steps as [|[n u] steps IH]; intros obj props Hp Hnd Hrun.
  - injection Hrun as <-. exists props. split; [by rewrite with_props_id |].
    split; [by intros ? ? [] | done].
  - rewrite run_cons in Hrun. cbn [fst snd] in Hrun.
    rewrite fmap_cons in Hnd. apply NoDup_cons in Hnd as [Hn Hnd]. cbn [fst] in Hn.
    destruct (step n u obj) as [obj1|] eqn:E; [| done]. simpl in Hrun.
    apply step_Ok in E as (props0 & c & Hp0 & Hu & ->).
    assert (props0 = props) as -> by congruence.
    destruct (IH _ _ (props_of_with_props _ _ _ Hp) Hnd Hrun)
      as (props' & -> & Hsteps & Hframe).
    exists props'. split; [by rewrite with_props_twice |]. split.
    + intros name update [[= <- <-] | Hin].
      * exists c. split; [done |]. rewrite Hframe by done. apply lookup_insert_eq.
      * destruct (Hsteps _ _ Hin) as (c' & Hc' & Hl).
        assert (n <> name) as Hne.
        { intros <-. apply Hn. apply list_elem_of_fmap. exists (n, update).
          split; [done |]. by apply list_elem_of_In. }
        rewrite lookup_insert_ne in Hc' by done. by eauto.
    + intros name Hname. rewrite fmap_cons in Hname. cbn [fst] in Hname.
      apply not_elem_of_cons in Hname as [Hne Hname].
      rewrite Hframe by done. by apply lookup_insert_ne.
Qed.

(** A run whose steps all leave their field as it is leaves the object as
    it is. *)
Lemma run_fixed (steps : list (string * (value -> result value)))
    (obj : value) (props : gmap string value) :
  props_of obj = Some props ->
  (forall name update, In (name, update) steps ->
     exists c, props !! name = Some c /\ update c = Ok c) ->
  run steps obj = Ok obj.
Proof.
  intros Hp. induction steps as [|[n u] steps IH]; intros Hall; [done |].
  rewrite run_cons. cbn [fst snd].
  destruct (Hall n u) as (c & Hc & Hu); [by left |].
  unfold step. rewrite Hp, Hc. simpl. rewrite Hu. simpl.
  rewrite insert_id, with_props_id by done. simpl.
  apply IH. intros name update Hin. apply Hall. by right.
Qed.

Lemma run_without_props (steps : list (string * (value -> result value)))
    (obj obj' : value) :
  props_of obj = None -> run steps obj = Ok obj' -> steps = [] /\ obj' = obj.
Proof.
  intros Hp. destruct steps as [|[n u] steps].
  - by intros [= <-].
  - rewrite run_cons. unfold step. cbn [fst snd]. by rewrite Hp.
Qed.

Lemma run_settled (steps : list (string * (value -> result value))) :
  NoDup (fst <$> steps) ->
  Forall (fun s => settled (snd s)) steps ->
  settled (run steps).
Proof.
  intros Hnd Hall c c' Hrun. destruct (props_of c) as [props|] eqn:Hp.
  - destruct (run_props _ _ _ _ Hp Hnd Hrun) as (props' & -> & Hsteps & _).
    apply (run_fixed _ _ props'); [by eapply props_of_with_props |].
    intros name update Hin. destruct (Hsteps _ _ Hin) as (c' & Hc' & Hl).
    exists c'. split; [done |].
    rewrite List.Forall_forall in Hall. by apply (Hall _ Hin) in Hc'.
  - by destruct (run_without_props _ _ _ Hp Hrun) as [-> ->].
Qed.

Lemma run_accepts (steps : list (string * (value -> result value)))
    (c c' d : value) :
  NoDup (fst <$> steps) -> run steps c = Ok c' -> accepts c' d = accepts c d.
Proof.
  intros Hnd Hrun. destruct (props_of c) as [props|] eqn:Hp.
  - destruct (run_props _ _ _ _ Hp Hnd Hrun) as (props' & -> & _).
    by eapply accepts_with_props.
  - by destruct (run_without_props _ _ _ Hp Hrun) as [_ ->].
Qed.

Lemma accepts_default (c d : value) :
  accepts d d = true -> accepts (if accepts c d then c else d) d = true.
Proof. intros Hd. by destruct (accepts c d) eqn:E. Qed.

Lemma leaf_settled (d : value) : accepts d d = true -> settled (leaf d).
Proof.
  intros Hd c c' [= <-]. unfold leaf. by rewrite accepts_default.
Qed.

Lemma node_settled (d : value) (steps : list (string * (value -> result value))) :
  accepts d d = true ->
  NoDup (fst <$> steps) ->
  Forall (fun s => settled (snd s)) steps ->
  settled (node d steps).
Proof.
  intros Hd Hnd Hall c c' Hrun. unfold node in *.
  assert (accepts c' d = true) as ->.
  { rewrite (run_accepts _ _ _ d Hnd Hrun). by apply accepts_default. }
  by apply (run_settled steps Hnd Hall) in Hrun.
Qed.

Lemma site_schema_settled :
  NoDup (fst <$> site_schema) /\ Forall (fun s => settled (snd s)) site_schema.
Proof.
  split.
  - apply (bool_decide_unpack _); vm_compute; exact I.
  - unfold site_schema, default_site. simpl.
    repeat (constructor; [by apply leaf_settled |]). constructor.
Qed.

Lemma globalSettings_schema_settled (os : string) :
  NoDup (fst <$> globalSettings_schema os)
  /\ Forall (fun s => settled (snd s)) (globalSettings_schema os).
Proof.
  split.
  - apply (bool_decide_unpack _); vm_compute; exact I.
  - unfold globalSettings_schema.
    repeat (constructor;
            [first [ by apply leaf_settled
                   | apply node_settled;
                     [ done
                     | apply (bool_decide_unpack _); vm_compute; exact I
                     | repeat constructor; by apply leaf_settled ] ] |]).
    constructor.
Qed.

Lemma settings_schema_settled (os : string) : settled (run (settings_schema os)).
Proof.
  apply run_settled.
  - apply (bool_decide_unpack _); vm_compute; exact I.
  - unfold settings_schema. constructor; [| constructor; [| constructor]].
    + apply node_settled; [done | apply globalSettings_schema_settled ..].
    + apply node_settled; [done | |].
      * apply (bool_decide_unpack _); vm_compute; exact I.
      * repeat constructor. apply node_settled; [done | apply site_schema_settled ..].
Qed.

(** A merge that returned: the tree it returned is returned again as it
    is. *)
Lemma mergeWithDefaults_rerun (os : string) (settings settings' : value) :
  mergeWithDefaults os settings = Ok settings' ->
  mergeWithDefaults os settings' = Ok settings'.
Proof.
  intros E. rewrite mergeWithDefaults_schema in *.
  set (s0 := if is_undefined_value settings then VObject ∅ else settings) in *.
  assert (is_undefined_value settings' = false) as ->.
  { destruct (props_of s0) as [props|] eqn:Hp.
    - unfold settings_schema in E. rewrite run_cons in E.
      destruct (step _ _ s0) as [s1|] eqn:E1; [| done].
      apply step_Ok in E1 as (props1 & c & Hp1 & _ & ->). simpl in E.
      rewrite run_one in E.
      apply step_Ok in E as (props2 & c2 & _ & _ & ->).
      by destruct s0.
    - by apply run_without_props in E as [? _]. }
  exact (settings_schema_settled os _ _ E).
Qed.

(** C6: running the merge on its own result changes nothing,
    [mergeWithDefaults(os, mergeWithDefaults(os, s))] is
    [mergeWithDefaults(os, s)]: the merge of a tree either throws, and so
    does the run on top of it, or returns a tree that the merge returns as
    it is. *)
Theorem mergeWithDefaults_idempotent (os : string) (settings : value) :
  mergeWithDefaults os settings ≫= mergeWithDefaults os
  = mergeWithDefaults os settings.
Proof.
  destruct (mergeWithDefaults os settings) as [settings'|e] eqn:E; simpl; [| done].
  by apply (mergeWithDefaults_rerun os settings).
Qed.

(** What a run of steps on distinct fields does, read through [child]. *)
Lemma run_child (steps : list (string * (value -> result value)))
    (obj obj' : value) :
  NoDup (fst <$> steps) ->
  run steps obj = Ok obj' ->
  (forall name, name ∉ fst <$> steps -> child obj' name = child obj name)
  /\ (forall name update, In (name, update) steps ->
        update (child obj name) = Ok (child obj' name)).
Proof.
  intros Hnd Hrun. destruct (props_of obj) as [props|] eqn:Hp.
  - destruct (run_props _ _ _ _ Hp Hnd Hrun) as (props' & -> & Hsteps & Hframe).
    unfold child. rewrite (props_of_with_props _ _ _ Hp), Hp. split.
    + intros name Hname. by rewrite Hframe.
    + intros name update Hin. destruct (Hsteps _ _ Hin) as (c & Hc & ->). done.
  - apply (run_without_props _ _ _ Hp) in Hrun as [-> ->].
    split; [done | by intros ? ? []].
Qed.

Lemma node_child (d : value) (steps : list (string * (value -> result value)))
    (cur cur' : value) :
  NoDup (fst <$> steps) ->
  node d steps cur = Ok cur' ->
  accepts cur d = true ->
  (forall name, name ∉ fst <$> steps -> child cur' name = child cur name)
  /\ (forall name update, In (name, update) steps ->
        update (child cur name) = Ok (child cur' name)).
Proof.
  intros Hnd Hrun Hacc. unfold node in Hrun. rewrite Hacc in Hrun.
  by apply run_child.
Qed.

Lemma leaf_child (d cur cur' : value) :
  leaf d cur = Ok cur' -> accepts cur d = true -> cur' = cur.
Proof. unfold leaf. intros [= <-] ->. done. Qed.

Lemma child_start (settings : value) (name : string) :
  child (if is_undefined_value settings then VObject ∅ else settings) name
  = child settings name.
Proof. by destruct settings. Qed.

(** A field of the wrong shape is replaced by the default [d] before the
    fields below it are defaulted: what it held is gone. *)
Lemma node_replaced (d : value) (steps : list (string * (value -> result value)))
    (cur cur' : value) :
  NoDup (fst <$> steps) ->
  node d steps cur = Ok cur' ->
  accepts cur d = false ->
  forall name, name ∉ fst <$> steps -> child cur' name = child d name.
Proof.
  intros Hnd Hrun Hacc. unfold node in Hrun. rewrite Hacc in Hrun.
  by apply run_child in Hrun as [Hframe _].
Qed.

(** C10, as the code has it: the merge only writes the fields its schema
    names, inside the containers it keeps.  A key of the tree that the schema
    does not name comes back with its value at the top level, and inside
    [globalSettings], [keyboard_layouts], [localSettings] and the site entry
    [".*"] when that container is an object that is not an array, as its
    default is.  A named field that is defined and has the type and array-ness
    of its default comes back with its value too; for the named objects this
    is the object kept with only its own named fields written.  A container
    of another shape is replaced by a fresh object before its fields are
    defaulted: the keys it held that the schema does not name are undefined
    afterwards. *)
Theorem mergeWithDefaults_frame (os : string) (settings settings' : value) :
  mergeWithDefaults os settings = Ok settings' ->
  let g := child settings "globalSettings" in
  let g' := child settings' "globalSettings" in
  let layouts := child g "keyboard_layouts" in
  let layouts' := child g' "keyboard_layouts" in
  let sites := child settings "localSettings" in
  let sites' := child settings' "localSettings" in
  let site := child sites ".*" in
  let site' := child sites' ".*" in
  (forall k, k <> "globalSettings" -> k <> "localSettings" ->
             child settings' k = child settings k)
  /\ (accepts g (VObject ∅) = true ->
      (forall k, k ∉ fst <$> globalSettings_schema os -> child g' k = child g k)
      /\ (forall k d, In (k, leaf d) (globalSettings_schema os) ->
                      accepts (child g k) d = true -> child g' k = child g k)
      /\ (accepts layouts (VObject ∅) = true ->
          (forall k, k <> "default" -> child layouts' k = child layouts k)
          /\ (accepts (child layouts "default") (value_of_pairs defaultKeyPairs) = true ->
              child layouts' "default" = child layouts "default")))
  /\ (accepts sites (VObject ∅) = true ->
      (forall k, k <> ".*" -> child sites' k = child sites k)
      /\ (accepts site (VObject ∅) = true ->
          (forall k, k ∉ fst <$> default_site -> child site' k = child site k)
          /\ (forall k d, In (k, d) default_site ->
                          accepts (child site k) d = true ->
                          child site' k = child site k)))
  /\ (accepts g (VObject ∅) = false ->
      forall k, k ∉ fst <$> globalSettings_schema os -> child g' k = VUndefined)
  /\ (accepts g (VObject ∅) = true -> accepts layouts (VObject ∅) = false ->
      forall k, k <> "default" -> child layouts' k = VUndefined)
  /\ (accepts sites (VObject ∅) = false ->
      forall k, k <> ".*" -> child sites' k = VUndefined)
  /\ (accepts sites (VObject ∅) = true -> accepts site (VObject ∅) = false ->
      forall k, k ∉ fst <$> default_site -> child site' k = VUndefined).
Proof.
  intros Hrun. rewrite mergeWithDefaults_schema in Hrun.
  apply run_child in Hrun as [Htop Hsteps];
    [| apply (bool_decide_unpack _); vm_compute; exact I].
  setoid_rewrite child_start in Htop. setoid_rewrite child_start in Hsteps.
  pose proof (Hsteps _ _ (or_introl eq_refl)) as Hg.
  pose proof (Hsteps _ _ (or_intror (or_introl eq_refl))) as Hl.
  assert (NoDup (fst <$> keyboard_layouts_schema)) as Hnd1
    by (apply (bool_decide_unpack _); vm_compute; exact I).
  assert (NoDup (fst <$> localSettings_schema)) as Hnd2
    by (apply (bool_decide_unpack _); vm_compute; exact I).
  assert (forall k : string, k <> "default" -> k ∉ fst <$> keyboard_layouts_schema) as Hk1.
  { intros k Hk. simpl. rewrite !not_elem_of_cons. split; [done | apply not_elem_of_nil]. }
  assert (forall k : string, k <> ".*" -> k ∉ fst <$> localSettings_schema) as Hk2.
  { intros k Hk. simpl. rewrite !not_elem_of_cons. split; [done | apply not_elem_of_nil]. }
  assert (fst <$> site_schema = fst <$> default_site) as Hk3.
  { unfold site_schema. by rewrite <- list_fmap_compose. }
  assert (accepts (child settings "globalSettings") (VObject ∅) = true ->
          node (VObject ∅) keyboard_layouts_schema
            (child (child settings "globalSettings") "keyboard_layouts")
          = Ok (child (child settings' "globalSettings") "keyboard_layouts")) as Hlay.
  { intros Hacc.
    apply node_child in Hg as [_ Hgsteps];
      [| apply globalSettings_schema_settled | done].
    apply Hgsteps. simpl; tauto. }
  assert (accepts (child settings "localSettings") (VObject ∅) = true ->
          node (VObject ∅) site_schema
            (child (child settings "localSettings") ".*")
          = Ok (child (child settings' "localSettings") ".*")) as Hsite.
  { intros Hacc.
    apply node_child in Hl as [_ Hssteps]; [| done | done].
    apply Hssteps. by left. }
  cbv zeta. split; [| split; [| split; [| split; [| split; [| split]]]]].
  - intros k H1 H2. apply Htop. simpl; rewrite !not_elem_of_cons; repeat split; try done; apply not_elem_of_nil.
  - intros Hacc.
    apply node_child in Hg as [Hgframe Hgsteps];
      [| apply globalSettings_schema_settled | done].
    split; [done |]. split.
    + intros k d Hin Hk. by eapply leaf_child; [apply Hgsteps |].
    + intros Hacc'. apply node_child in Hlay as [Hlframe Hlsteps]; [| done | done | done].
      split; [intros k Hk; by apply Hlframe, Hk1 |].
      intros Hd. by eapply leaf_child; [apply Hlsteps; left |].
  - intros Hacc.
    apply node_child in Hl as [Hsframe Hssteps]; [| done | done].
    split; [intros k Hk; by apply Hsframe, Hk2 |].
    intros Hacc'.
    apply node_child in Hsite as [Heframe Hesteps];
      [| apply site_schema_settled | done | done].
    split.
    + intros k Hk. apply Heframe. by rewrite Hk3.
    + intros k d Hin Hk. eapply leaf_child; [| done].
      apply Hesteps. unfold site_schema.
      by apply (in_map (fun kv => (fst kv, leaf (snd kv))) _ (k, d)).
  - intros Hacc k Hk.
    by rewrite (node_replaced _ _ _ _ (proj1 (globalSettings_schema_settled os)) Hg Hacc k Hk).
  - intros Hacc Hacc' k Hk.
    by rewrite (node_replaced _ _ _ _ Hnd1 (Hlay Hacc) Hacc' k (Hk1 k Hk)).
  - intros Hacc k Hk.
    by rewrite (node_replaced _ _ _ _ Hnd2 Hl Hacc k (Hk2 k Hk)).
  - intros Hacc Hacc' k Hk.
    rewrite (node_replaced _ _ _ _ (proj1 site_schema_settled) (Hsite Hacc) Hacc' k); [done |].
    by rewrite Hk3.
Qed.

Lemma mergeWithDefaults_frame_witness :
  exists settings',
    mergeWithDefaults "linux" sample_tree = Ok settings'
    /\ child settings' "extra" = VBool true
    /\ child (child settings' "globalSettings") "mine" = VNumber 7
    /\ child (child settings' "globalSettings") "alt" = VString "alphanum"
    /\ child (child (child settings' "globalSettings") "keyboard_layouts") "dvorak"
       = VObject ∅
    /\ child (child settings' "localSettings") "github\.com"
       = VObject (list_to_map [ ("priority", VNumber 5) ])
    /\ child (child (child settings' "localSettings") ".*") "note" = VString "kept"
    /\ child (child (child settings' "localSettings") ".*") "takeover" = VString "never".
Proof.
  destruct (mergeWithDefaults "linux" sample_tree) as [settings'|e] eqn:E;
    [| vm_compute in E; discriminate E].
  exists settings'. split; [reflexivity |].
  destruct (mergeWithDefaults_frame "linux" sample_tree settings' E)
    as (Htop & Hg & Hs & _).
  destruct (Hg eq_refl) as (Hgframe & Hgleaf & Hlay).
  destruct (Hlay eq_refl) as [Hlframe _].
  destruct (Hs eq_refl) as [Hsframe Hsite].
  destruct (Hsite eq_refl) as [Heframe Heleaf].
  split; [by rewrite Htop |].
  split.
  { rewrite Hgframe; [reflexivity |].
    apply (bool_decide_unpack _); vm_compute; exact I. }
  split.
  { rewrite (Hgleaf "alt" (VString "all")); [reflexivity | | reflexivity].
    simpl. tauto. }
  split; [by rewrite Hlframe |].
  split; [by rewrite Hsframe |].
  split.
  { rewrite Heframe; [reflexivity |].
    apply (bool_decide_unpack _); vm_compute; exact I. }
  rewrite (Heleaf "takeover" (VString "always")); [reflexivity | | reflexivity].
  simpl. tauto.
Defined.

(** C10 as worded fails where a container has another shape than the
    schema's: a [globalSettings] that is an array is replaced by a fresh
    object, and the key [mine] and the item [0] it held are gone. *)
Lemma mergeWithDefaults_frame_counterexample :
  exists settings',
    mergeWithDefaults "linux" array_tree = Ok settings'
    /\ ("mine" ∉ fst <$> globalSettings_schema "linux")
    /\ child (child array_tree "globalSettings") "mine" = VNumber 7
    /\ child (child settings' "globalSettings") "mine" = VUndefined
    /\ item (child array_tree "globalSettings") 0 = VNumber 7
    /\ item (child settings' "globalSettings") 0 = VUndefined.
Proof.
  eexists. split; [vm_compute; reflexivity |].
  split; [apply (bool_decide_unpack _); vm_compute; exact I |].
  repeat split; vm_compute; reflexivity.
Qed.

(** The sample tree after the merge: its own keys are there, the field of
    the wrong type has its default, the fields it left out have theirs. *)
Example mergeWithDefaults_sample :
  mergeWithDefaults "linux" sample_tree
  ≫= (fun s =>
        let g := child s "globalSettings" in
        let site := child (child s "localSettings") ".*" in
        Ok [ child s "extra"; child g "mine"; child g "alt";
             child g "cmdlineTimeout"; child g "shiftCtrl";
             child (child g "keyboard_layouts") "dvorak";
             child site "takeover"; child site "note"; child site "renderer";
             child (child s "localSettings") "github\.com" ])
  = Ok [ VBool true; VNumber 7; VString "alphanum";
         VNumber 3000; VBool true;
         VObject ∅;
         VString "never"; VString "kept"; VString "canvas";
         VObject (list_to_map [ ("priority", VNumber 5) ]) ].
Proof. vm_compute. reflexivity. Qed.

(** [null] where the schema has an object passes the test of [makeDefaults]
    ([typeof null] is ["object"]) and the next read of a field throws. *)
Example mergeWithDefaults_null :
  mergeWithDefaults "linux" (VObject (list_to_map [ ("globalSettings", VNull) ]))
  = Throw TypeError.
Proof. vm_compute. reflexivity. Qed.

Lemma run_returns (steps : list (string * (value -> result value)))
    (obj : value) :
  is_Some (props_of obj) ->
  NoDup (fst <$> steps) ->
  (forall name update, In (name, update) steps ->
     exists c, update (child obj name) = Ok c) ->
  exists obj', run steps obj = Ok obj'.
Proof.
  revert obj. induction steps as [|[n u] steps IH]; intros obj [props Hp] Hnd Hall.
  - by exists obj.
  - rewrite fmap_cons in Hnd. apply NoDup_cons in Hnd as [Hn Hnd]. cbn [fst] in Hn.
    destruct (Hall n u) as [c Hc]; [by left |].
    rewrite run_cons. cbn [fst snd]. unfold step. unfold child in Hc.
    rewrite Hp in *. rewrite Hc. simpl. apply IH; [| done |].
    + rewrite (props_of_with_props _ _ _ Hp). by eauto.
    + intros name update Hin. unfold child.
      rewrite (props_of_with_props _ _ _ Hp).
      assert (n <> name) as Hne.
      { intros <-. apply Hn. apply list_elem_of_fmap. exists (n, update).
        split; [done |]. by apply list_elem_of_In. }
      rewrite lookup_insert_ne by done.
      destruct (Hall name update) as [c' Hc']; [by right |].
      unfold child in Hc'. rewrite Hp in Hc'. by eauto.
Qed.

(** The object a field of the schema is taken to be: the current value if
    it passes the test of [makeDefaults], a fresh object otherwise. *)
Lemma object_or_default (cur : value) :
  cur <> VNull ->
  is_Some (props_of (if accepts cur (VObject ∅) then cur else VObject ∅)).
Proof. destruct cur; simpl; by eauto. Qed.

Lemma child_or_default (cur : value) (name : string) :
  child cur name <> VNull ->
  child (if accepts cur (VObject ∅) then cur else VObject ∅) name <> VNull.
Proof. by destruct (accepts cur (VObject ∅)). Qed.

Lemma all_leaves_return (l : list (string * value)) (obj : value) :
  forall name update,
    In (name, update) ((fun kv => (fst kv, leaf (snd kv))) <$> l) ->
    exists c, update (child obj name) = Ok c.
Proof.
  intros name update Hin. apply in_map_iff in Hin as ([k d] & [= <- <-] & _).
  unfold leaf. by eauto.
Qed.

(** The merge returns on every tree that is [undefined] or an object or
    array and has no [null] where the schema has an object. *)
Lemma mergeWithDefaults_returns (os : string) (settings : value) :
  settings = VUndefined \/ is_Some (props_of settings) ->
  child settings "globalSettings" <> VNull ->
  child (child settings "globalSettings") "keyboard_layouts" <> VNull ->
  child settings "localSettings" <> VNull ->
  child (child settings "localSettings") ".*" <> VNull ->
  exists settings', mergeWithDefaults os settings = Ok settings'.
Proof.
  intros Hs Hg Hk Hl He. rewrite mergeWithDefaults_schema.
  apply run_returns.
  - destruct Hs as [-> | Hs]; [by eauto |]. by destruct settings.
  - apply (bool_decide_unpack _); vm_compute; exact I.
  - setoid_rewrite child_start.
    intros name update [[= <- <-] | [[= <- <-] | []]]; unfold node.
    + apply run_returns;
        [by apply object_or_default | apply globalSettings_schema_settled |].
      unfold globalSettings_schema.
      intros name update Hin. simpl in Hin.
      repeat (destruct Hin as [[= <- <-] | Hin]; [unfold leaf; by eauto |]).
      destruct Hin as [[= <- <-] | Hin].
      { unfold node. apply run_returns.
        - by apply object_or_default, child_or_default.
        - apply (bool_decide_unpack _); vm_compute; exact I.
        - intros ? ? [[= <- <-] | []]. unfold leaf. by eauto. }
      repeat (destruct Hin as [[= <- <-] | Hin]; [unfold leaf; by eauto |]).
      destruct Hin.
    + apply run_returns; [by apply object_or_default | |].
      * apply (bool_decide_unpack _); vm_compute; exact I.
      * intros ? ? [[= <- <-] | []]. unfold node.
        apply run_returns;
          [by apply object_or_default, child_or_default
          | apply site_schema_settled |].
        apply all_leaves_return.
Qed.

Example mergeWithDefaults_undefined :
  exists settings',
    mergeWithDefaults "mac" VUndefined = Ok settings'
    /\ child (child settings' "globalSettings") "alt" = VString "alphanum"
    /\ child (child (child settings' "localSettings") ".*") "priority" = VNumber 0.
Proof. eexists. split; [vm_compute; reflexivity |]. split; reflexivity. Qed.

(** * Further properties *)

(** ** The layout maps, whatever the configured layout *)

(** A round of the validation either claims the shifted key of its entry,
    or falls back to the default layout and logs one warning. *)
Lemma validate_entry_round (st : BuildState) (k v : string) :
  (visited st !! v = Some false
   /\ is_undefined (js_get (visited st) k) = false
   /\ validate_entry st (k, v)
      = {| visited := <[v := true]> (visited st);
           keyToShiftedKey := keyToShiftedKey st;
           warnings := warnings st |})
  \/ (exists w,
        validate_entry st (k, v)
        = {| visited := visited st;
             keyToShiftedKey := defaultKeyPairs;
             warnings := warnings st ++ [w] |}).
Proof.
  unfold validate_entry.
  destruct (is_undefined (js_get (visited st) k)) eqn:Ek; [by right; eauto |].
  destruct (is_undefined (js_get (visited st) v)) eqn:Ev; [by right; eauto |].
  simpl. destruct (truthy _) eqn:Et; [by right; eauto |].
  unfold js_get in *. destruct (visited st !! v) as [[]|] eqn:E.
  - done.
  - by left.
  - by destruct (inherited v).
Qed.

(** The warnings only grow, and they grow exactly when the loop falls back. *)
Lemma validate_entries_warnings (l : MappableKeyPairs) (st : BuildState) :
  (keyToShiftedKey (fold_left validate_entry l st) = keyToShiftedKey st
   /\ warnings (fold_left validate_entry l st) = warnings st)
  \/ (keyToShiftedKey (fold_left validate_entry l st) = defaultKeyPairs
      /\ exists w ws,
           warnings (fold_left validate_entry l st) = (warnings st ++ w :: ws)%list).
Proof.
  revert st. induction l as [|[k v] l IH]; intros st; cbn [fold_left].
  - by left.
  - destruct (validate_entry_round st k v) as [(_ & _ & Heq) | [w Heq]].
    + destruct (IH (validate_entry st (k, v))) as [[H1 H2] | [H1 (w & ws & H2)]].
      * left. by rewrite H1, H2, Heq.
      * right. split; [done |]. exists w, ws. by rewrite H2, Heq.
    + right. split.
      { apply validate_entries_default. by rewrite Heq. }
      destruct (IH (validate_entry st (k, v))) as [[_ H2] | [_ (w' & ws & H2)]].
      * exists w, []. by rewrite H2, Heq.
      * exists w, (w' :: ws). rewrite H2, Heq. simpl. by rewrite <- app_assoc.
Qed.

(** A run of rounds that does not end on a fallback claimed the shifted key
    of every entry: the shifted keys are pairwise distinct and were free, and
    no key read as [undefined]. *)
Lemma validate_entries_accepted (l : MappableKeyPairs) (st : BuildState) :
  keyToShiftedKey (fold_left validate_entry l st) = defaultKeyPairs
  \/ (keyToShiftedKey (fold_left validate_entry l st) = keyToShiftedKey st
      /\ NoDup (snd <$> l)
      /\ Forall (fun kv => visited st !! snd kv = Some false
                           /\ (is_Some (visited st !! fst kv)
                               \/ inherited (fst kv) = true)) l).
Proof.
  revert st. induction l as [|[k v] l IH]; intros st; cbn [fold_left].
  - right. split; [done |]. split; constructor.
  - destruct (validate_entry_round st k v) as [(Hv & Hk & Heq) | [w Heq]].
    + destruct (IH (validate_entry st (k, v))) as [Hd | (Hkeep & Hnd & Hall)].
      * by left.
      * right. split; [by rewrite Hkeep, Heq |].
        rewrite Heq in Hall. simpl in Hall.
        rewrite List.Forall_forall in Hall. split.
        -- rewrite fmap_cons. apply NoDup_cons. split; [| done].
           intros Hin. apply list_elem_of_fmap in Hin as ([k' v'] & Hv' & Hin).
           simpl in Hv'. subst v'.
           apply list_elem_of_In, Hall in Hin as [Hin _]. simpl in Hin.
           by rewrite lookup_insert_eq in Hin.
        -- constructor.
           ++ split; [done |]. simpl. unfold js_get in Hk.
              destruct (visited st !! k); [by eauto |].
              destruct (inherited k); by eauto.
           ++ apply List.Forall_forall. intros [k' v'] Hin.
              destruct (Hall _ Hin) as [Hv' Hk']. simpl in *.
              assert (v <> v') as Hne.
              { intros <-. by rewrite lookup_insert_eq in Hv'. }
              rewrite lookup_insert_ne in Hv' by done. split; [done |].
              destruct Hk' as [Hk' | Hk']; [| by right]. left.
              destruct (decide (v = k')) as [<-|Hne']; [by eauto |].
              by rewrite lookup_insert_ne in Hk'.
    + left. apply validate_entries_default. by rewrite Heq.
Qed.

Lemma invert_other (pairs : MappableKeyPairs) (m : gmap string string) (x : string) :
  x ∉ snd <$> pairs ->
  fold_left (fun m kv => <[snd kv := fst kv]> m) pairs m !! x = m !! x.
Proof.
  revert m. induction pairs as [|[k v] pairs IH]; intros m Hx; simpl; [done |].
  rewrite fmap_cons in Hx. apply not_elem_of_cons in Hx as [Hne Hx]. simpl in Hne.
  rewrite IH by done. by apply lookup_insert_ne.
Qed.

(** The inverse of a layout whose shifted keys are pairwise distinct. *)
Lemma invert_lookup_entry (pairs : MappableKeyPairs) (k v : string) :
  NoDup (snd <$> pairs) -> In (k, v) pairs -> invert pairs !! v = Some k.
Proof.
  unfold invert. generalize (∅ : gmap string string).
  induction pairs as [|[k' v'] pairs IH]; intros m Hnd Hin; [done |].
  rewrite fmap_cons in Hnd. apply NoDup_cons in Hnd as [Hv Hnd]. simpl in *.
  destruct Hin as [[= -> ->] | Hin].
  - rewrite invert_other by done. apply lookup_insert_eq.
  - by apply IH.
Qed.

Lemma visited_init_lookup (x : string) :
  In x MappableKeys -> visited_init !! x = Some false.
Proof.
  intros Hin. destruct (proj2 (visited_init_ok x) Hin) as [b Hb].
  unfold visited_init in *. rewrite mark_false_lookup, lookup_empty in *.
  by destruct (existsb (String.eqb x) MappableKeys).
Qed.

Lemma mappable_not_empty (x : string) : In x MappableKeys -> x <> EmptyString.
Proof.
  intros Hin. unfold MappableKeys in Hin. simpl in Hin.
  repeat (destruct Hin as [<-|Hin]; [discriminate |]). destruct Hin.
Qed.

Lemma inherited_not_empty (x : string) : inherited x = true -> x <> EmptyString.
Proof. by intros Hx ->. Qed.

Lemma defaultKeyPairs_distinct : NoDup (snd <$> defaultKeyPairs).
Proof. apply (bool_decide_unpack _); vm_compute; exact I. Qed.

Lemma defaultKeyPairs_keys :
  Forall (fun kv => In (fst kv) MappableKeys) defaultKeyPairs.
Proof.
  unfold defaultKeyPairs, MappableKeys.
  repeat (constructor; [simpl; tauto |]). constructor.
Qed.

(** What holds of the layout the constructor settles on, configured or
    default: distinct mappable shifted keys, and keys that are mappable or
    the name of a built-in member. *)
Lemma active_layout (settings : GlobalSettings) :
  let l := layout_keyToShiftedKey (buildShiftedKeyToKey settings) in
  NoDup (snd <$> l)
  /\ Forall (fun kv => In (snd kv) MappableKeys
                       /\ (In (fst kv) MappableKeys \/ inherited (fst kv) = true)) l.
Proof.
  cbv zeta. unfold buildShiftedKeyToKey. simpl.
  destruct (validate_entries_accepted (keyboard_layouts_default settings)
              {| visited := visited_init;
                 keyToShiftedKey := keyboard_layouts_default settings;
                 warnings := [] |}) as [-> | (-> & Hnd & Hall)].
  - split; [apply defaultKeyPairs_distinct |].
    pose proof defaultKeyPairs_shifted as H1. pose proof defaultKeyPairs_keys as H2.
    rewrite List.Forall_forall in *. intros kv Hin.
    split; [by apply H1 | left; by apply H2].
  - simpl in *. split; [done |].
    rewrite List.Forall_forall in *. intros kv Hin.
    destruct (Hall _ Hin) as [Hv Hk]. split.
    + apply visited_init_ok. by eauto.
    + destruct Hk as [Hk | Hk]; [left | by right]. by apply visited_init_ok.
Qed.

Lemma default_not_rejected : ~ rejected_layout defaultKeyPairs.
Proof.
  intros [Hex | (l1 & k1 & v & l2 & k2 & l3 & Heq)].
  - apply List.Exists_exists in Hex as (kv & Hin & Hc).
    pose proof defaultKeyPairs_shifted as H1. pose proof defaultKeyPairs_keys as H2.
    rewrite List.Forall_forall in *.
    destruct Hc as [[Hk _] | Hv]; [by apply Hk, H2 | by apply Hv, H1].
  - pose proof defaultKeyPairs_distinct as Hnd. rewrite Heq in Hnd.
    rewrite fmap_app, fmap_cons, fmap_app, fmap_cons in Hnd. simpl in Hnd.
    apply NoDup_app in Hnd as (_ & _ & Hnd).
    apply NoDup_cons in Hnd as [Hv _]. apply Hv.
    apply elem_of_app. right. by left.
Qed.

(** X1: a configured layout with an entry the validation catches (an
    unknown key that does not name a built-in member, an unknown shifted key,
    a shifted key given twice) is given up as a whole: both maps are those
    of the default layout, the default layout is stored back into the
    settings, and at least one warning is logged. *)
Theorem rejected_layout_falls_back (settings : GlobalSettings) :
  rejected_layout (keyboard_layouts_default settings) ->
  layout_keyToShiftedKey (buildShiftedKeyToKey settings) = defaultKeyPairs
  /\ layout_shiftedKeyToKey (buildShiftedKeyToKey settings) = invert defaultKeyPairs
  /\ keyboard_layouts_default (settings_after_build settings) = defaultKeyPairs
  /\ layout_warnings (buildShiftedKeyToKey settings) <> [].
Proof.
  intros Hrej.
  destruct (buildShiftedKeyToKey_rejected settings Hrej) as (H1 & H2 & H3).
  repeat split; try done.
  unfold buildShiftedKeyToKey in *. simpl in *.
  destruct (validate_entries_warnings (keyboard_layouts_default settings)
              {| visited := visited_init;
                 keyToShiftedKey := keyboard_layouts_default settings;
                 warnings := [] |}) as [[Hk _] | [_ (w & ws & ->)]]; [| done].
  simpl in Hk. rewrite H1 in Hk. rewrite <- Hk in Hrej.
  by apply default_not_rejected in Hrej.
Qed.

Lemma rejected_layout_falls_back_witness :
  layout_keyToShiftedKey
    (buildShiftedKeyToKey (settings_with [("a", "!"); ("2", "@")] (fun _ => None)))
  = defaultKeyPairs
  /\ layout_warnings
       (buildShiftedKeyToKey (settings_with [("a", "!"); ("2", "@")] (fun _ => None)))
     <> [].
Proof.
  destruct (rejected_layout_falls_back
              (settings_with [("a", "!"); ("2", "@")] (fun _ => None)))
    as (H1 & _ & _ & H4).
  - left. left. left. split; [| reflexivity].
    simpl. intros H. repeat (destruct H as [H|H]; [discriminate H |]). destruct H.
  - split; assumption.
Defined.

Lemma validate_entries_valid (l : MappableKeyPairs) (st : BuildState) :
  visited_ok (visited st) ->
  NoDup (snd <$> l) ->
  Forall (fun kv => In (fst kv) MappableKeys /\ visited st !! snd kv = Some false) l ->
  keyToShiftedKey (fold_left validate_entry l st) = keyToShiftedKey st
  /\ warnings (fold_left validate_entry l st) = warnings st.
Proof.
  revert st. induction l as [|[k v] l IH]; intros st Hok Hnd Hall; cbn [fold_left].
  - done.
  - apply Forall_cons in Hall as [[Hk Hv] Hall]. simpl in Hk, Hv.
    rewrite fmap_cons in Hnd. apply NoDup_cons in Hnd as [Hnv Hnd]. simpl in Hnv.
    assert (validate_entry st (k, v)
            = {| visited := <[v := true]> (visited st);
                 keyToShiftedKey := keyToShiftedKey st;
                 warnings := warnings st |}) as Heq.
    { unfold validate_entry, js_get. rewrite Hv.
      destruct (proj2 (Hok k) Hk) as [b ->]. reflexivity. }
    destruct (IH (validate_entry st (k, v))) as [H1 H2].
    + by apply validate_entry_visited_ok.
    + done.
    + rewrite Heq. simpl. rewrite List.Forall_forall in *.
      intros [k' v'] Hin. destruct (Hall _ Hin) as [Hk' Hv']. simpl in *.
      split; [done |]. rewrite lookup_insert_ne; [done |].
      intros <-. apply Hnv. apply list_elem_of_fmap. exists (k', v).
      split; [done |]. by apply list_elem_of_In.
    + by rewrite H1, H2, Heq.
Qed.

(** X2: a configured layout whose keys and shifted keys are all mappable
    keys, no shifted key given twice, is kept as it is: it is the active
    layout, no warning is logged, and the inverse map sends every shifted
    key to its key. *)
Theorem valid_layout_kept (settings : GlobalSettings) :
  Forall (fun kv => In (fst kv) MappableKeys /\ In (snd kv) MappableKeys)
    (keyboard_layouts_default settings) ->
  NoDup (snd <$> keyboard_layouts_default settings) ->
  layout_keyToShiftedKey (buildShiftedKeyToKey settings)
  = keyboard_layouts_default settings
  /\ layout_warnings (buildShiftedKeyToKey settings) = []
  /\ keyboard_layouts_default (settings_after_build settings)
     = keyboard_layouts_default settings
  /\ forall k v, In (k, v) (keyboard_layouts_default settings) ->
                 layout_shiftedKeyToKey (buildShiftedKeyToKey settings) !! v = Some k.
Proof.
  intros Hall Hnd.
  destruct (validate_entries_valid (keyboard_layouts_default settings)
              {| visited := visited_init;
                 keyToShiftedKey := keyboard_layouts_default settings;
                 warnings := [] |}) as [H1 H2].
  - apply visited_init_ok.
  - done.
  - rewrite List.Forall_forall in *. intros kv Hin.
    destruct (Hall _ Hin) as [Hk Hv]. split; [done |]. by apply visited_init_lookup.
  - unfold buildShiftedKeyToKey, settings_after_build. simpl in *.
    rewrite H1, H2. repeat split; try done.
    intros k v Hin. by apply invert_lookup_entry.
Qed.

Lemma mappable_check (x : string) :
  existsb (String.eqb x) MappableKeys = true -> In x MappableKeys.
Proof.
  intros E. apply existsb_exists in E as (y & Hy & Heq).
  apply String.eqb_eq in Heq. by subst.
Qed.

Lemma valid_layout_kept_witness :
  layout_keyToShiftedKey
    (buildShiftedKeyToKey (settings_with [("2", dquote); ("'", "@")] (fun _ => None)))
  = [("2", dquote); ("'", "@")]
  /\ layout_warnings
       (buildShiftedKeyToKey (settings_with [("2", dquote); ("'", "@")] (fun _ => None)))
     = [].
Proof.
  destruct (valid_layout_kept
              (settings_with [("2", dquote); ("'", "@")] (fun _ => None)))
    as (H1 & H2 & _).
  - constructor; [split; apply mappable_check; reflexivity |].
    constructor; [split; apply mappable_check; reflexivity |].
    constructor.
  - apply (bool_decide_unpack _); vm_compute; exact I.
  - split; assumption.
Defined.

(** X3: whatever is configured, the shifted keys of the layout the handler
    works with are mappable keys, and so is every key the handler takes for
    a shifted key; the keys they stand for are mappable keys or names of
    built-in object members. *)
Theorem active_shifted_keys_are_mappable (settings : GlobalSettings) :
  (forall k v,
     In (k, v) (layout_keyToShiftedKey (buildShiftedKeyToKey settings)) ->
     In v MappableKeys /\ (In k MappableKeys \/ inherited k = true))
  /\ (forall x,
        inherited x = false ->
        hasUnshiftedKey (layout_shiftedKeyToKey (buildShiftedKeyToKey settings)) x = true ->
        In x MappableKeys).
Proof.
  split.
  - intros k v Hin. destruct (active_layout settings) as [_ Hall].
    rewrite List.Forall_forall in Hall. by apply (Hall (k, v)).
  - intros x Hx Hhas. apply hasUnshiftedKey_label in Hhas as [k Hk]; [| done].
    by apply shiftedKeyToKey_mappable in Hk.
Qed.

(** X4: in the layout the handler works with, configured or default, every
    entry round-trips: the shifted key [v] of a key [k] is known to
    [hasUnshiftedKey] and [getUnshiftedKey] gives [k] back.  A key label
    that is not a shifted key of the layout is returned as it is. *)
Theorem active_layout_round_trip (settings : GlobalSettings) :
  (forall k v,
     In (k, v) (layout_keyToShiftedKey (buildShiftedKeyToKey settings)) ->
     hasUnshiftedKey (layout_shiftedKeyToKey (buildShiftedKeyToKey settings)) v = true
     /\ getUnshiftedKey (layout_shiftedKeyToKey (buildShiftedKeyToKey settings)) v
        = Some k)
  /\ (forall x,
        inherited x = false ->
        (forall k, ~ In (k, x) (layout_keyToShiftedKey (buildShiftedKeyToKey settings))) ->
        hasUnshiftedKey (layout_shiftedKeyToKey (buildShiftedKeyToKey settings)) x = false
        /\ getUnshiftedKey (layout_shiftedKeyToKey (buildShiftedKeyToKey settings)) x
           = Some x).
Proof.
  destruct (active_layout settings) as [Hnd Hall]. cbv zeta in *.
  assert (layout_shiftedKeyToKey (buildShiftedKeyToKey settings)
          = invert (layout_keyToShiftedKey (buildShiftedKeyToKey settings))) as ->
    by reflexivity.
  split.
  - intros k v Hin.
    pose proof (invert_lookup_entry _ _ _ Hnd Hin) as Hl.
    rewrite List.Forall_forall in Hall. destruct (Hall _ Hin) as [_ Hk]. simpl in Hk.
    assert (k <> EmptyString) as Hne.
    { destruct Hk; [by apply mappable_not_empty | by apply inherited_not_empty]. }
    unfold hasUnshiftedKey, getUnshiftedKey, js_get. rewrite Hl. split; [done |].
    by destruct (String.eqb_spec k EmptyString).
  - intros x Hx Hnone.
    assert (invert (layout_keyToShiftedKey (buildShiftedKeyToKey settings)) !! x = None)
      as Hl.
    { destruct (invert _ !! x) as [k|] eqn:E; [| done].
      apply invert_lookup in E. by apply Hnone in E. }
    unfold hasUnshiftedKey, getUnshiftedKey, js_get. by rewrite Hl, Hx.
Qed.

Lemma active_layout_round_trip_witness :
  hasUnshiftedKey
    (layout_shiftedKeyToKey
       (buildShiftedKeyToKey (settings_with [("2", dquote); ("'", "@")] (fun _ => None))))
    dquote = true
  /\ getUnshiftedKey
       (layout_shiftedKeyToKey
          (buildShiftedKeyToKey (settings_with [("2", dquote); ("'", "@")] (fun _ => None))))
       dquote = Some "2".
Proof.
  apply (proj1 (active_layout_round_trip
                  (settings_with [("2", dquote); ("'", "@")] (fun _ => None)))).
  vm_compute. left. reflexivity.
Defined.

(** X5: the constructor replaces the configured layout only with a warning,
    and every warning goes with the replacement: without a warning the active
    layout is the configured one, with one it is the default layout. *)
Theorem layout_replaced_only_with_warning (settings : GlobalSettings) :
  (layout_warnings (buildShiftedKeyToKey settings) = [] ->
   layout_keyToShiftedKey (buildShiftedKeyToKey settings)
   = keyboard_layouts_default settings)
  /\ (layout_warnings (buildShiftedKeyToKey settings) <> [] ->
      layout_keyToShiftedKey (buildShiftedKeyToKey settings) = defaultKeyPairs).
Proof.
  unfold buildShiftedKeyToKey. simpl.
  destruct (validate_entries_warnings (keyboard_layouts_default settings)
              {| visited := visited_init;
                 keyToShiftedKey := keyboard_layouts_default settings;
                 warnings := [] |}) as [[H1 H2] | [H1 (w & ws & H2)]];
    simpl in *; rewrite H2.
  - split; [done | by intros []].
  - split; [by intros [=] | done].
Qed.

(** X6: the settings the constructor leaves behind are settled: a handler
    built from them gets the same two maps and logs nothing. *)
Theorem rebuild_is_clean (settings : GlobalSettings) :
  layout_keyToShiftedKey (buildShiftedKeyToKey (settings_after_build settings))
  = layout_keyToShiftedKey (buildShiftedKeyToKey settings)
  /\ layout_shiftedKeyToKey (buildShiftedKeyToKey (settings_after_build settings))
     = layout_shiftedKeyToKey (buildShiftedKeyToKey settings)
  /\ layout_warnings (buildShiftedKeyToKey (settings_after_build settings)) = [].
Proof.
  assert (forall s1 s2,
            keyboard_layouts_default s1 = keyboard_layouts_default s2 ->
            buildShiftedKeyToKey s1 = buildShiftedKeyToKey s2) as Hsame.
  { intros s1 s2 H. unfold buildShiftedKeyToKey. by rewrite H. }
  destruct (validate_entries_warnings (keyboard_layouts_default settings)
              {| visited := visited_init;
                 keyToShiftedKey := keyboard_layouts_default settings;
                 warnings := [] |}) as [[H1 H2] | [H1 _]];
    cbn [keyToShiftedKey warnings] in H1.
  - cbn [warnings] in H2.
    rewrite (Hsame (settings_after_build settings) settings).
    + split; [done |]. split; [done |].
      unfold buildShiftedKeyToKey. cbn [layout_warnings]. exact H2.
    + unfold settings_after_build, buildShiftedKeyToKey.
      cbn [keyboard_layouts_default layout_keyToShiftedKey]. exact H1.
  - rewrite (Hsame (settings_after_build settings) default_settings).
    + assert (layout_keyToShiftedKey (buildShiftedKeyToKey settings) = defaultKeyPairs)
        as Hk by exact H1.
      assert (layout_shiftedKeyToKey (buildShiftedKeyToKey settings)
              = invert defaultKeyPairs) as Hm.
      { unfold buildShiftedKeyToKey. cbn [layout_shiftedKeyToKey]. by rewrite H1. }
      rewrite Hk, Hm. repeat split; vm_compute; reflexivity.
    + unfold settings_after_build, buildShiftedKeyToKey.
      cbn [keyboard_layouts_default layout_keyToShiftedKey]. exact H1.
Qed.

Lemma active_shifted_keys_are_mappable_witness :
  In "@" MappableKeys.
Proof.
  apply (proj2 (active_shifted_keys_are_mappable default_settings) "@");
    vm_compute; reflexivity.
Defined.

Lemma layout_replaced_only_with_warning_witness :
  layout_keyToShiftedKey
    (buildShiftedKeyToKey (settings_with [("a", "!")] (fun _ => None)))
  = defaultKeyPairs.
Proof.
  apply (proj2 (layout_replaced_only_with_warning
                  (settings_with [("a", "!")] (fun _ => None)))).
  vm_compute. discriminate.
Defined.

(** ** The keydown listener: when it emits and what *)

Lemma not_a_modifier_name (k : string) (l : list (string * string)) :
  forallb (fun am : string * string => negb (String.eqb k (fst am))) l = true ->
  ~ In k (map fst l).
Proof.
  induction l as [|am l IH]; simpl; [tauto |].
  intros H. apply andb_true_iff in H as [Hne H].
  intros [Heq | Hin]; [| by apply IH].
  rewrite Heq, String.eqb_refl in Hne. discriminate.
Qed.

Section KeyHandlerMore.

Variable nonLiteralKeys : string -> option string.
Variable translateKey : string -> string.
Variable addModifier : string -> string -> string.

Local Abbreviation composed' := (compose translateKey addModifier).
Local Abbreviation text_of' := (keydown_text translateKey addModifier).
Local Abbreviation listener' := (keydown nonLiteralKeys translateKey addModifier).

(** X7: the listener acts on an event (emits, or stops its default action
    or its propagation) only if the event is trusted, its key has a
    non-literal representation or some modifier is held and the key is not a
    modifier itself, and the alt workaround does not apply; it then does all
    three at once, for a text that is not on the ignore list. *)
Theorem emission_requires (settings : GlobalSettings) (m : gmap string string)
    (currentMode : option NvimMode) (evt : KeyboardEvent) (eff : Effects) :
  listener' settings m currentMode evt = Ok eff ->
  eff <> no_effect ->
  isTrusted evt = true
  /\ (is_Some (nonLiteralKeys (key evt))
      \/ ((shiftKey evt = true \/ altKey evt = true \/ ctrlKey evt = true
           \/ metaKey evt = true)
          /\ ~ In (key evt) ["Alt"; "Control"; "OS"; "Meta"; "Shift"]))
  /\ ~ (altKey evt = true /\ alt settings = "alphanum"
        /\ test_alphanum (key evt) = false)
  /\ exists text,
       eff = emit_input text /\ ~ In text (ignored_keys settings currentMode).
Proof.
  unfold keydown. intros Hrun Heff.
  destruct (alt_declined settings evt) eqn:Ealt; [congruence |].
  destruct (translatable nonLiteralKeys evt) eqn:Etr; [| congruence].
  destruct (keydown_text_ok translateKey addModifier settings m evt) as [text Htext].
  rewrite Htext in Hrun. simpl in Hrun.
  destruct (includes (ignored_keys settings currentMode) text) eqn:Einc;
    simpl in Hrun; [congruence |].
  injection Hrun as <-.
  unfold translatable in Etr. apply andb_true_iff in Etr as [Htrusted Etr].
  split; [done |]. split; [| split].
  - apply orb_true_iff in Etr as [Hnl | Hmod].
    + left. by apply bool_decide_eq_true in Hnl.
    + right. apply andb_true_iff in Hmod as [Hnames Hheld]. split.
      * destruct (shiftKey evt), (altKey evt), (ctrlKey evt), (metaKey evt);
          simpl in Hheld; try discriminate; tauto.
      * by apply not_a_modifier_name in Hnames.
  - intros (Ha & Hp & Hk). unfold alt_declined in Ealt.
    by rewrite Ha, Hp, Hk in Ealt.
  - exists text. split; [done |]. intros Hin. apply includes_spec in Hin. congruence.
Qed.

(** X8: when [Shift] is held together with [Alt] or [Control] on a shifted
    key [v] of the layout, the flag of that combination decides: set, the
    text is composed over the unshifted key [k] with [Shift] as the last
    modifier; clear, it is composed over [v] itself without [Shift]. *)
Theorem shift_flag_chooses_key (settings : GlobalSettings) (m : gmap string string)
    (evt : KeyboardEvent) (k : string) :
  m !! key evt = Some k ->
  k <> EmptyString ->
  shiftKey evt = true ->
  altKey evt = true \/ ctrlKey evt = true ->
  let flag :=
    if altKey evt
    then (if ctrlKey evt then shiftAltCtrl settings else shiftAlt settings)
    else shiftCtrl settings in
  text_of' settings m evt
  = Ok (if flag
        then (if getModifierState evt "Shift"
              then addModifier "S" (composed' evt specialKeys k)
              else composed' evt specialKeys k)
        else composed' evt specialKeys (key evt)).
Proof.
  intros Hm Hk Hs Hac flag. unfold keydown_text, keeps_shifted, hasUnshiftedKey,
    getUnshiftedKey, js_get. rewrite Hm, Hs. simpl.
  assert (String.eqb k EmptyString = false) as -> by by apply String.eqb_neq.
  rewrite <- (compose_with_shift translateKey addModifier).
  subst flag.
  destruct (altKey evt), (ctrlKey evt); simpl;
    try (by destruct Hac);
    rewrite ?andb_false_r, ?orb_false_r; simpl;
    by destruct (shiftAlt settings), (shiftCtrl settings), (shiftAltCtrl settings).
Qed.

(** X9: outside the three flagged combinations the layout never rewrites
    the key: the text is composed over the raw key, without [Shift] if the
    key is a shifted key of the layout and with [Shift] among the modifiers
    if it is not. *)
Theorem unflagged_event_keeps_key (settings : GlobalSettings)
    (m : gmap string string) (evt : KeyboardEvent) :
  ~ flagged settings evt ->
  text_of' settings m evt
  = Ok (composed' evt
          (if hasUnshiftedKey m (key evt) then specialKeys
           else (specialKeys ++ shiftKeys)%list)
          (key evt)).
Proof.
  intros Hnf. unfold keydown_text.
  destruct (keeps_shifted settings m evt) eqn:Ekeep.
  - apply keeps_shifted_spec in Ekeep as [-> _]. done.
  - destruct (hasUnshiftedKey m (key evt)) eqn:Ehas.
    + assert (keeps_shifted settings m evt = true); [| congruence].
      by apply keeps_shifted_spec.
    + unfold hasUnshiftedKey, getUnshiftedKey in *.
      by destruct (js_get m (key evt)).
Qed.

End KeyHandlerMore.

Lemma emission_requires_witness :
  isTrusted ctrl_shift_at = true
  /\ exists text,
       emit_input "<SC-2>" = emit_input text
       /\ ~ In text (ignored_keys default_settings (Some m_normal)).
Proof.
  destruct (emission_requires spec_nonLiteralKeys spec_translateKey spec_addModifier
              default_settings
              (layout_shiftedKeyToKey (buildShiftedKeyToKey default_settings))
              (Some m_normal) ctrl_shift_at (emit_input "<SC-2>"))
    as (H1 & _ & _ & H4).
  - vm_compute. reflexivity.
  - discriminate.
  - split; assumption.
Defined.

Lemma shift_flag_chooses_key_witness :
  keydown_text spec_translateKey spec_addModifier default_settings
    (layout_shiftedKeyToKey (buildShiftedKeyToKey default_settings)) ctrl_shift_at
  = Ok "<SC-2>"
  /\ keydown_text spec_translateKey spec_addModifier (settings_with_shift_flags false)
       (layout_shiftedKeyToKey (buildShiftedKeyToKey default_settings)) ctrl_shift_at
     = Ok "<C-@>".
Proof.
  split.
  - apply (shift_flag_chooses_key spec_translateKey spec_addModifier default_settings
             (layout_shiftedKeyToKey (buildShiftedKeyToKey default_settings))
             ctrl_shift_at "2");
      [vm_compute; reflexivity | discriminate | reflexivity | right; reflexivity].
  - apply (shift_flag_chooses_key spec_translateKey spec_addModifier
             (settings_with_shift_flags false)
             (layout_shiftedKeyToKey (buildShiftedKeyToKey default_settings))
             ctrl_shift_at "2");
      [vm_compute; reflexivity | discriminate | reflexivity | right; reflexivity].
Defined.

Lemma unflagged_event_keeps_key_witness :
  keydown_text spec_translateKey spec_addModifier default_settings
    (layout_shiftedKeyToKey (buildShiftedKeyToKey default_settings)) shift_at
  = Ok "@".
Proof.
  apply (unflagged_event_keeps_key spec_translateKey spec_addModifier
           default_settings
           (layout_shiftedKeyToKey (buildShiftedKeyToKey default_settings)) shift_at).
  intros [H | [H | H]]; destruct H as (_ & H1 & H2 & _); discriminate.
Defined.

(** ** The resolver: ties, failures, empty results, priorities *)

Lemma priority_le_trans : Relations_1.Transitive priority_le.
Proof. intros e1 e2 e3. unfold priority_le. lia. Qed.

Lemma fold_field_same {A : Type} (field : ISiteConfig -> option A)
    (l : list (string * ISiteConfig)) (v : A) :
  Forall (fun e => field (snd e) = None \/ field (snd e) = Some v) l ->
  foldl (fun acc e => from_option Some acc (field (snd e))) (Some v) l = Some v.
Proof.
  induction l as [|e l IH]; intros Hall; simpl; [done |].
  apply Forall_cons in Hall as [[-> | ->] Hall]; simpl; by apply IH.
Qed.

Lemma fold_field_some {A : Type} (field : ISiteConfig -> option A)
    (l : list (string * ISiteConfig)) (o : option A) :
  is_Some (foldl (fun acc e => from_option Some acc (field (snd e))) o l)
  <-> is_Some o \/ Exists (fun e => is_Some (field (snd e))) l.
Proof.
  revert o. induction l as [|e l IH]; intros o; simpl.
  - split; [by left | intros [H | H]; [done | by apply Exists_nil in H]].
  - rewrite IH, Exists_cons. destruct (field (snd e)) as [v|]; simpl.
    + split; [by eauto | by eauto].
    + split; [intros [H | H]; by eauto |].
      intros [H | [[x Hx] | H]]; by eauto.
Qed.

Lemma assign_fold_highest {A : Type} (field : ISiteConfig -> option A)
    (matching : list (string * ISiteConfig)) :
  (forall acc cur, field (assign acc cur) = from_option Some (field acc) (field cur)) ->
  highest_priority_wins field matching
    (foldl (fun acc e => assign acc (snd e)) empty_site_config
       (sort_by_priority matching)).
Proof.
  intros Hf e v Hin He Hhigh.
  pose proof (sort_by_priority_perm matching) as Hperm.
  pose proof (sort_by_priority_sorted matching) as Hsorted.
  apply (Sorted_StronglySorted priority_le_trans) in Hsorted.
  assert (In e (sort_by_priority matching)) as Hin'
    by (apply (Permutation_in _ Hperm); done).
  apply in_split in Hin' as (l1 & l2 & Heq). rewrite Heq in *.
  rewrite (assign_fold_field field _ _ Hf), foldl_app. simpl. rewrite He. simpl.
  apply fold_field_same. apply List.Forall_forall. intros e' Hin2.
  destruct (field (snd e')) as [v'|] eqn:E; [| by left]. right.
  assert (In e' matching) as Hin3.
  { apply (Permutation_in _ (Permutation_sym Hperm)).
    apply in_or_app. right. by right. }
  destruct (Hhigh e' Hin3) as [-> | Hlt]; [by rewrite E; eauto | congruence |].
  exfalso.
  assert (priority_le e e') as Hle.
  { clear -Hsorted Hin2.
    induction l1 as [|x l1 IH]; simpl in Hsorted.
    - apply StronglySorted_inv in Hsorted as [_ Hall].
      rewrite List.Forall_forall in Hall. by apply Hall.
    - apply StronglySorted_inv in Hsorted as [Hs _]. by apply IH. }
  unfold priority_le in Hle. lia.
Qed.

Lemma assign_fold_set {A : Type} (field : ISiteConfig -> option A)
    (matching : list (string * ISiteConfig)) :
  (forall acc cur, field (assign acc cur) = from_option Some (field acc) (field cur)) ->
  field empty_site_config = None ->
  set_by_some_entry field matching
    (foldl (fun acc e => assign acc (snd e)) empty_site_config
       (sort_by_priority matching)).
Proof.
  intros Hf Hinit. unfold set_by_some_entry.
  rewrite (assign_fold_field field _ _ Hf), fold_field_some, Hinit.
  pose proof (sort_by_priority_perm matching) as Hperm.
  rewrite !List.Exists_exists. split.
  - intros [[x Hx] | (e & Hin & He)]; [done |]. exists e. split; [| done].
    by apply (Permutation_in _ (Permutation_sym Hperm)).
  - intros (e & Hin & He). right. exists e. split; [| done].
    by apply (Permutation_in _ Hperm).
Qed.

Section SiteConfigResolverMore.

Variable RegExp : string -> option (string -> bool).

(** X10: entries that are in ascending order of priority in the table as
    it is (in particular entries of one and the same priority, such as the
    default 1) are folded in table order, so among them the later entry
    wins. *)
Theorem ascending_table_order_kept (c : IConfig)
    (entries : list (string * ISiteConfig)) (url : string) :
  localSettings c = Some entries ->
  Forall (fun e => is_Some (RegExp (fst e))) entries ->
  Sorted priority_le (List.filter (matches_url RegExp url) entries) ->
  getConfForUrl RegExp (Some c) url
  = Ok (foldl (fun acc e => assign acc (snd e)) empty_site_config
          (List.filter (matches_url RegExp url) entries)).
Proof.
  intros Hc Hall Hs. unfold getConfForUrl.
  rewrite Hc, (filter_matching_ok RegExp) by done. simpl.
  by rewrite sort_by_priority_stable.
Qed.

(** X11: a key of the site table that does not compile as a pattern makes
    every resolution throw a [SyntaxError], whatever the URL and wherever
    the key stands in the table. *)
Theorem invalid_pattern_throws (c : IConfig)
    (entries : list (string * ISiteConfig)) (url : string) :
  localSettings c = Some entries ->
  Exists (fun e => RegExp (fst e) = None) entries ->
  getConfForUrl RegExp (Some c) url = Throw SyntaxError.
Proof.
  intros Hc Hex. unfold getConfForUrl.
  by rewrite Hc, (filter_matching_throws RegExp).
Qed.

(** X12: when no pattern of the table matches the URL (an empty table
    included) the resolver returns the empty configuration: every field is
    missing. *)
Theorem no_match_gives_empty (c : IConfig)
    (entries : list (string * ISiteConfig)) (url : string) :
  localSettings c = Some entries ->
  Forall (fun e => exists test, RegExp (fst e) = Some test /\ test url = false)
    entries ->
  getConfForUrl RegExp (Some c) url = Ok empty_site_config.
Proof.
  intros Hc Hall. unfold getConfForUrl. rewrite Hc.
  assert (filter_matching RegExp url entries = Ok []) as ->; [| done].
  clear Hc. induction entries as [|e entries IH]; simpl; [done |].
  apply Forall_cons in Hall as [(test & -> & ->) Hall]. by rewrite IH.
Qed.

(** X13: a matching entry that has a field, and a strictly higher priority
    than every other matching entry that has it, decides that field of the
    resolved configuration. *)
Theorem highest_priority_decides (c : IConfig)
    (entries : list (string * ISiteConfig)) (url : string) :
  localSettings c = Some entries ->
  Forall (fun e => is_Some (RegExp (fst e))) entries ->
  exists resolved,
    getConfForUrl RegExp (Some c) url = Ok resolved
    /\ let matching := List.filter (matches_url RegExp url) entries in
       highest_priority_wins cmdline matching resolved
       /\ highest_priority_wins content matching resolved
       /\ highest_priority_wins priority matching resolved
       /\ highest_priority_wins renderer matching resolved
       /\ highest_priority_wins selector matching resolved
       /\ highest_priority_wins takeover matching resolved
       /\ highest_priority_wins filename matching resolved.
Proof.
  intros Hc Hall. eexists. split.
  { unfold getConfForUrl. rewrite Hc, (filter_matching_ok RegExp) by done.
    reflexivity. }
  cbv zeta. repeat split; by apply assign_fold_highest.
Qed.

(** X14: a field of the resolved configuration is defined exactly when
    some matching entry has it; a resolution is complete as soon as one
    matching entry, such as the defaulted [".*"], is. *)
Theorem field_defined_iff_set (c : IConfig)
    (entries : list (string * ISiteConfig)) (url : string) :
  localSettings c = Some entries ->
  Forall (fun e => is_Some (RegExp (fst e))) entries ->
  exists resolved,
    getConfForUrl RegExp (Some c) url = Ok resolved
    /\ let matching := List.filter (matches_url RegExp url) entries in
       set_by_some_entry cmdline matching resolved
       /\ set_by_some_entry content matching resolved
       /\ set_by_some_entry priority matching resolved
       /\ set_by_some_entry renderer matching resolved
       /\ set_by_some_entry selector matching resolved
       /\ set_by_some_entry takeover matching resolved
       /\ set_by_some_entry filename matching resolved.
Proof.
  intros Hc Hall. eexists. split.
  { unfold getConfForUrl. rewrite Hc, (filter_matching_ok RegExp) by done.
    reflexivity. }
  cbv zeta. split; [| split; [| split; [| split; [| split; [| split]]]]];
    by apply assign_fold_set.
Qed.

End SiteConfigResolverMore.

Lemma ascending_table_order_kept_witness :
  exists resolved,
    getConfForUrl RegExp_fragment (Some tied_conf) "http://example.com" = Ok resolved
    /\ renderer resolved = Some "html".
Proof.
  rewrite (ascending_table_order_kept RegExp_fragment tied_conf
             [ (".*", site_renderer "canvas"); ("example\.com", site_renderer "html") ]
             "http://example.com").
  - eexists. split; reflexivity.
  - reflexivity.
  - repeat constructor; vm_compute; eexists; reflexivity.
  - repeat constructor; vm_compute; discriminate.
Defined.

Lemma invalid_pattern_throws_witness :
  getConfForUrl RegExp_fragment (Some broken_conf) "http://example.com"
  = Throw SyntaxError.
Proof.
  apply (invalid_pattern_throws RegExp_fragment broken_conf
           [ (".*", site_renderer "canvas"); ("(", site_renderer "html") ]).
  - reflexivity.
  - right. left. reflexivity.
Defined.

Lemma no_match_gives_empty_witness :
  getConfForUrl RegExp_fragment
    (Some {| globalSettings := None;
             localSettings := Some [ ("example\.com", site_renderer "html") ] |})
    "http://other.com"
  = Ok empty_site_config.
Proof.
  apply (no_match_gives_empty RegExp_fragment _
           [ ("example\.com", site_renderer "html") ]).
  - reflexivity.
  - constructor; [| constructor]. eexists. split; reflexivity.
Defined.

Lemma highest_priority_decides_witness :
  exists resolved,
    getConfForUrl RegExp_fragment (Some example_conf) "http://example.com" = Ok resolved.
Proof.
  destruct (highest_priority_decides RegExp_fragment example_conf
              [ (".*", site_entry 0 "canvas"); ("example\.com", site_entry 10 "html") ]
              "http://example.com") as (resolved & H & _).
  - reflexivity.
  - repeat constructor; vm_compute; eexists; reflexivity.
  - by exists resolved.
Defined.

Lemma field_defined_iff_set_witness :
  exists resolved,
    getConfForUrl RegExp_fragment (Some example_conf) "http://other.com" = Ok resolved.
Proof.
  destruct (field_defined_iff_set RegExp_fragment example_conf
              [ (".*", site_entry 0 "canvas"); ("example\.com", site_entry 10 "html") ]
              "http://other.com") as (resolved & H & _).
  - reflexivity.
  - repeat constructor; vm_compute; eexists; reflexivity.
  - by exists resolved.
Defined.

(** ** The defaulting merge: what the result holds, when there is one *)

Lemma leaf_inj (d1 d2 : value) : leaf d1 = leaf d2 -> d1 = d2.
Proof.
  intros H. apply (f_equal (fun update => update VUndefined)) in H.
  unfold leaf in H. simpl in H. congruence.
Qed.

Lemma leaf_result (d c c' : value) :
  accepts d d = true -> leaf d c = Ok c' -> accepts c' d = true.
Proof. intros Hd [= <-]. by apply accepts_default. Qed.

Lemma leaf_default (d c c' : value) :
  accepts c d = false -> leaf d c = Ok c' -> c' = d.
Proof. unfold leaf. by intros -> [= <-]. Qed.

(** What a defaulted field with fields below holds after its update. *)
Lemma node_result (d : value) (steps : list (string * (value -> result value)))
    (cur cur' : value) :
  accepts d d = true ->
  NoDup (fst <$> steps) ->
  node d steps cur = Ok cur' ->
  accepts cur' d = true
  /\ forall name update, In (name, update) steps ->
       update (child (if accepts cur d then cur else d) name) = Ok (child cur' name).
Proof.
  intros Hd Hnd Hrun. unfold node in Hrun. split.
  - rewrite (run_accepts _ _ _ d Hnd Hrun). by apply accepts_default.
  - by apply run_child.
Qed.

Lemma node_not_null (steps : list (string * (value -> result value)))
    (cur cur' : value) :
  steps <> [] -> node (VObject ∅) steps cur = Ok cur' -> cur <> VNull.
Proof.
  intros Hsteps Hrun ->. unfold node in Hrun. simpl in Hrun.
  by apply run_without_props in Hrun as [? _].
Qed.

Lemma globalSettings_leaf_default (os : string) (k : string) (d : value) :
  In (k, leaf d) (globalSettings_schema os) -> accepts d d = true.
Proof.
  unfold globalSettings_schema. intros Hin. simpl in Hin.
  repeat (destruct Hin as [[= _ Hd] | Hin];
          [first [ apply leaf_inj in Hd; by subst
                 | apply (f_equal (fun update => update VNull)) in Hd;
                   vm_compute in Hd; discriminate Hd ] |]).
  destruct Hin.
Qed.

Lemma default_site_default (k : string) (d : value) :
  In (k, d) default_site -> accepts d d = true.
Proof.
  unfold default_site. intros Hin. simpl in Hin.
  repeat (destruct Hin as [[= _ <-] | Hin]; [reflexivity |]). destruct Hin.
Qed.

Lemma settings_schema_names (os : string) : NoDup (fst <$> settings_schema os).
Proof. apply (bool_decide_unpack _); vm_compute; exact I. Qed.

Lemma keyboard_layouts_schema_names : NoDup (fst <$> keyboard_layouts_schema).
Proof. apply (bool_decide_unpack _); vm_compute; exact I. Qed.

Lemma localSettings_schema_names : NoDup (fst <$> localSettings_schema).
Proof. apply (bool_decide_unpack _); vm_compute; exact I. Qed.

Lemma keyboard_layouts_in_schema (os : string) :
  In ("keyboard_layouts", node (VObject ∅) keyboard_layouts_schema)
    (globalSettings_schema os).
Proof. simpl. tauto. Qed.

Lemma site_leaf_in_schema (k : string) (d : value) :
  In (k, d) default_site -> In (k, leaf d) site_schema.
Proof.
  intros Hin. unfold site_schema.
  by apply (in_map (fun kv => (fst kv, leaf (snd kv))) _ (k, d)).
Qed.

(** The steps of a returning merge, read at the two top fields. *)
Lemma mergeWithDefaults_steps (os : string) (settings settings' : value) :
  mergeWithDefaults os settings = Ok settings' ->
  is_Some (props_of settings')
  /\ node (VObject ∅) (globalSettings_schema os) (child settings "globalSettings")
     = Ok (child settings' "globalSettings")
  /\ node (VObject ∅) localSettings_schema (child settings "localSettings")
     = Ok (child settings' "localSettings").
Proof.
  intros Hrun. rewrite mergeWithDefaults_schema in Hrun.
  set (s0 := if is_undefined_value settings then VObject ∅ else settings) in *.
  split.
  - destruct (props_of s0) as [props|] eqn:Hp.
    + destruct (run_props _ _ _ _ Hp (settings_schema_names os) Hrun)
        as (props' & -> & _).
      rewrite (props_of_with_props _ _ _ Hp). by eauto.
    + by apply run_without_props in Hrun as [? _].
  - apply run_child in Hrun as [_ Hsteps]; [| apply settings_schema_names].
    subst s0. setoid_rewrite child_start in Hsteps.
    split; apply Hsteps; simpl; tauto.
Qed.

(** X15: the tree a merge returns has every field of the schema, each one
    defined and with the type and array-ness of its default: the two
    top-level objects, every global setting, the layout table with its
    [default], the site table with its entry [".*"] and every field of that
    entry. *)
Theorem merged_tree_conforms (os : string) (settings settings' : value) :
  mergeWithDefaults os settings = Ok settings' ->
  let g' := child settings' "globalSettings" in
  let layouts' := child g' "keyboard_layouts" in
  let sites' := child settings' "localSettings" in
  let site' := child sites' ".*" in
  is_Some (props_of settings')
  /\ accepts g' (VObject ∅) = true
  /\ (forall k d, In (k, leaf d) (globalSettings_schema os) ->
                  accepts (child g' k) d = true)
  /\ accepts layouts' (VObject ∅) = true
  /\ accepts (child layouts' "default") (value_of_pairs defaultKeyPairs) = true
  /\ accepts sites' (VObject ∅) = true
  /\ accepts site' (VObject ∅) = true
  /\ (forall k d, In (k, d) default_site -> accepts (child site' k) d = true).
Proof.
  intros Hrun. cbv zeta.
  destruct (mergeWithDefaults_steps _ _ _ Hrun) as (Hp & Hg & Hl).
  apply node_result in Hg as [Hgacc Hgsteps];
    [| done | apply globalSettings_schema_settled].
  apply node_result in Hl as [Hlacc Hlsteps];
    [| done | apply localSettings_schema_names].
  pose proof (Hgsteps _ _ (keyboard_layouts_in_schema os)) as Hk.
  apply node_result in Hk as [Hkacc Hksteps];
    [| done | apply keyboard_layouts_schema_names].
  pose proof (Hlsteps _ _ (or_introl eq_refl)) as He.
  apply node_result in He as [Heacc Hesteps]; [| done | apply site_schema_settled].
  repeat split; try done.
  - intros k d Hin. eapply leaf_result; [| by apply Hgsteps].
    by eapply globalSettings_leaf_default.
  - eapply leaf_result; [| apply Hksteps; by left]. done.
  - intros k d Hin. eapply leaf_result; [| by apply Hesteps, site_leaf_in_schema].
    by eapply default_site_default.
Qed.

(** X16: a leaf field of the schema that the tree does not have, or has
    with another type or array-ness (or whose enclosing object is missing or
    of the wrong shape), holds its default after the merge: the user value is
    overwritten, never converted. *)
Theorem unfit_leaf_gets_default (os : string) (settings settings' : value) :
  mergeWithDefaults os settings = Ok settings' ->
  let g := child settings "globalSettings" in
  let g' := child settings' "globalSettings" in
  let sites := child settings "localSettings" in
  let site := child sites ".*" in
  let site' := child (child settings' "localSettings") ".*" in
  (forall k d, In (k, leaf d) (globalSettings_schema os) ->
     accepts g (VObject ∅) = false \/ accepts (child g k) d = false ->
     child g' k = d)
  /\ (forall k d, In (k, d) default_site ->
        accepts sites (VObject ∅) = false \/ accepts site (VObject ∅) = false
        \/ accepts (child site k) d = false ->
        child site' k = d).
Proof.
  intros Hrun. cbv zeta.
  destruct (mergeWithDefaults_steps _ _ _ Hrun) as (_ & Hg & Hl).
  apply node_result in Hg as [_ Hgsteps];
    [| done | apply globalSettings_schema_settled].
  apply node_result in Hl as [_ Hlsteps];
    [| done | apply localSettings_schema_names].
  split.
  - intros k d Hin Hunfit. eapply leaf_default; [| by apply Hgsteps].
    destruct (accepts (child settings "globalSettings") (VObject ∅));
      [by destruct Hunfit | done].
  - intros k d Hin Hunfit.
    pose proof (Hlsteps _ _ (or_introl eq_refl)) as He.
    apply node_result in He as [_ Hesteps]; [| done | apply site_schema_settled].
    eapply leaf_default; [| by apply Hesteps, site_leaf_in_schema].
    destruct (accepts (child settings "localSettings") (VObject ∅)) eqn:E1;
      [| done].
    destruct (accepts (child (child settings "localSettings") ".*") (VObject ∅))
      eqn:E2; [| done].
    by destruct Hunfit as [? | [? | ?]].
Qed.

Lemma merged_tree_conforms_witness :
  exists settings',
    mergeWithDefaults "linux" sample_tree = Ok settings'
    /\ accepts (child (child settings' "globalSettings") "cmdlineTimeout")
         (VNumber 3000) = true.
Proof.
  destruct (mergeWithDefaults "linux" sample_tree) as [settings'|e] eqn:E;
    [| vm_compute in E; discriminate E].
  exists settings'. split; [reflexivity |].
  destruct (merged_tree_conforms "linux" sample_tree settings' E)
    as (_ & _ & H & _).
  apply H. simpl. tauto.
Defined.

Lemma unfit_leaf_gets_default_witness :
  exists settings',
    mergeWithDefaults "linux" sample_tree = Ok settings'
    /\ child (child settings' "globalSettings") "cmdlineTimeout" = VNumber 3000.
Proof.
  destruct (mergeWithDefaults "linux" sample_tree) as [settings'|e] eqn:E;
    [| vm_compute in E; discriminate E].
  exists settings'. split; [reflexivity |].
  destruct (unfit_leaf_gets_default "linux" sample_tree settings' E) as [H _].
  apply H; [simpl; tauto | right; reflexivity].
Defined.

Lemma settings_schema_fails_by_type (os : string) :
  Forall (fun s : string * (value -> result value) => fails_by_type (snd s))
    (settings_schema os).
Proof.
  unfold settings_schema. constructor; [| constructor; [| constructor]].
  - apply node_fails_by_type, globalSettings_schema_fails_by_type.
  - apply node_fails_by_type. repeat constructor.
    apply node_fails_by_type, all_leaves_fail_by_type.
Qed.

Lemma object_or_default_child (cur : value) (name : string) :
  (accepts cur (VObject ∅) = true -> child cur name <> VNull) ->
  child (if accepts cur (VObject ∅) then cur else VObject ∅) name <> VNull.
Proof. destruct (accepts cur (VObject ∅)); [by eauto | done]. Qed.

(** X17: the merge returns exactly on the trees that are [undefined] or an
    object (or array) and have no [null] in the place of [globalSettings],
    of [localSettings], of the [keyboard_layouts] of a [globalSettings]
    object or of the [".*"] of a [localSettings] object; on every other
    tree it throws, and what it throws is always a [TypeError]. *)
Theorem mergeWithDefaults_returns_iff (os : string) (settings : value) :
  let g := child settings "globalSettings" in
  let sites := child settings "localSettings" in
  ((exists settings', mergeWithDefaults os settings = Ok settings')
   <-> ((settings = VUndefined \/ is_Some (props_of settings))
        /\ g <> VNull
        /\ (accepts g (VObject ∅) = true -> child g "keyboard_layouts" <> VNull)
        /\ sites <> VNull
        /\ (accepts sites (VObject ∅) = true -> child sites ".*" <> VNull)))
  /\ (forall e, mergeWithDefaults os settings = Throw e -> e = TypeError).
Proof.
  cbv zeta. split; [split |].
  - intros [settings' Hrun].
    destruct (mergeWithDefaults_steps _ _ _ Hrun) as (_ & Hg & Hl).
    split; [| split; [| split; [| split]]].
    + rewrite mergeWithDefaults_schema in Hrun.
      destruct settings; simpl in *; try (by eauto).
      all: by apply run_without_props in Hrun as [? _].
    + eapply node_not_null; [| exact Hg]. unfold globalSettings_schema. discriminate.
    + intros Hacc.
      apply node_result in Hg as [_ Hgsteps];
        [| done | apply globalSettings_schema_settled].
      pose proof (Hgsteps _ _ (keyboard_layouts_in_schema os)) as Hk.
      rewrite Hacc in Hk.
      eapply node_not_null; [| exact Hk]. unfold keyboard_layouts_schema. discriminate.
    + eapply node_not_null; [| exact Hl]. unfold localSettings_schema. discriminate.
    + intros Hacc.
      apply node_result in Hl as [_ Hlsteps];
        [| done | apply localSettings_schema_names].
      pose proof (Hlsteps _ _ (or_introl eq_refl)) as He.
      rewrite Hacc in He.
      eapply node_not_null; [| exact He]. unfold site_schema, default_site. discriminate.
  - intros (Hs & Hg & Hk & Hl & He). rewrite mergeWithDefaults_schema.
    apply run_returns.
    + destruct Hs as [-> | Hs]; [by eauto |]. by destruct settings.
    + apply settings_schema_names.
    + setoid_rewrite child_start.
      intros name update [[= <- <-] | [[= <- <-] | []]]; unfold node.
      * apply run_returns;
          [by apply object_or_default | apply globalSettings_schema_settled |].
        unfold globalSettings_schema.
        intros name update Hin. simpl in Hin.
        repeat (destruct Hin as [[= <- <-] | Hin]; [unfold leaf; by eauto |]).
        destruct Hin as [[= <- <-] | Hin].
        { unfold node. apply run_returns.
          - by apply object_or_default, object_or_default_child.
          - apply keyboard_layouts_schema_names.
          - intros ? ? [[= <- <-] | []]. unfold leaf. by eauto. }
        repeat (destruct Hin as [[= <- <-] | Hin]; [unfold leaf; by eauto |]).
        destruct Hin.
      * apply run_returns;
          [by apply object_or_default | apply localSettings_schema_names |].
        intros ? ? [[= <- <-] | []]. unfold node.
        apply run_returns;
          [by apply object_or_default, object_or_default_child
          | apply site_schema_settled |].
        apply all_leaves_return.
  - intros e Hrun. rewrite mergeWithDefaults_schema in Hrun.
    by apply (run_fails_by_type _ (settings_schema_fails_by_type os)) in Hrun.
Qed.

Lemma run_app (l1 l2 : list (string * (value -> result value))) (obj : value) :
  run (l1 ++ l2) obj = run l1 obj ≫= run l2.
Proof.
  revert obj. induction l1 as [|s l1 IH]; intros obj; simpl; [done |].
  rewrite !run_cons, bind_assoc. apply bind_ext. intros o. apply IH.
Qed.

(** X18: the operating system only matters for the default of [alt]: on a
    tree whose [globalSettings] object already has a string for [alt], the
    merge gives the same result for every operating system. *)
Theorem explicit_alt_ignores_os (os1 os2 : string) (settings : value) :
  accepts (child settings "globalSettings") (VObject ∅) = true ->
  accepts (child (child settings "globalSettings") "alt") (VString EmptyString) = true ->
  mergeWithDefaults os1 settings = mergeWithDefaults os2 settings.
Proof.
  intros Hg Halt. rewrite !mergeWithDefaults_schema.
  set (s0 := if is_undefined_value settings then VObject ∅ else settings).
  unfold settings_schema. rewrite !run_cons. cbn [fst snd].
  assert (node (VObject ∅) (globalSettings_schema os1) (child s0 "globalSettings")
          = node (VObject ∅) (globalSettings_schema os2) (child s0 "globalSettings"))
    as Hnode.
  { subst s0. rewrite child_start. unfold node. rewrite Hg.
    set (g := child settings "globalSettings") in *.
    assert (forall os, globalSettings_schema os
                       = (take 12 (globalSettings_schema os1)
                          ++ [("alt", leaf (VString (if String.eqb os "mac"
                                                      then "alphanum" else "all")))])%list)
      as Hsplit by reflexivity.
    rewrite (Hsplit os1), (Hsplit os2), !run_app.
    destruct (run (take 12 (globalSettings_schema os1)) g) as [g1|] eqn:E; [| done].
    simpl. rewrite !run_one.
    apply run_child in E as [Hframe _];
      [| apply (bool_decide_unpack _); vm_compute; exact I].
    assert (child g1 "alt" = child g "alt") as Hsame.
    { apply Hframe. simpl. rewrite !not_elem_of_cons.
      repeat split; try done. apply not_elem_of_nil. }
    unfold step. destruct (props_of g1) as [props1|] eqn:Hp1; [| done].
    assert (default VUndefined (props1 !! "alt") = child g "alt") as ->.
    { rewrite <- Hsame. unfold child. by rewrite Hp1. }
    assert (forall s, accepts (child g "alt") (VString s) = true) as Hany
      by (intros s; exact Halt).
    unfold leaf. by rewrite !Hany. }
  unfold step. destruct (props_of s0) as [props|] eqn:Hp; [| done].
  unfold child in Hnode. rewrite Hp in Hnode. by rewrite Hnode.
Qed.

Lemma explicit_alt_ignores_os_witness :
  mergeWithDefaults "mac" sample_tree = mergeWithDefaults "linux" sample_tree.
Proof.
  apply (explicit_alt_ignores_os "mac" "linux" sample_tree); reflexivity.
Defined.

(** ** The resolver: the resolved priority *)

Lemma last_entry_with_field {A : Type} (field : ISiteConfig -> option A)
    (l : list (string * ISiteConfig)) :
  Exists (fun e => is_Some (field (snd e))) l ->
  exists l1 e l2 v,
    l = (l1 ++ e :: l2)%list
    /\ field (snd e) = Some v
    /\ Forall (fun e' => field (snd e') = None) l2.
Proof.
  induction l as [|x l IH]; intros Hex.
  - by apply Exists_nil in Hex.
  - destruct (decide (Exists (fun e => is_Some (field (snd e))) l)) as [Hl | Hl].
    + destruct (IH Hl) as (l1 & e & l2 & v & -> & He & Hall).
      by exists (x :: l1), e, l2, v.
    + apply Exists_cons in Hex as [[v Hv] | Hex]; [| done].
      exists [], x, l, v. repeat split; try done.
      apply List.Forall_forall. intros e Hin.
      destruct (field (snd e)) eqn:E; [| done].
      exfalso. apply Hl. apply List.Exists_exists. exists e. split; [done |].
      rewrite E. by eauto.
Qed.

Lemma sorted_before (l1 l2 : list (string * ISiteConfig)) (e x : string * ISiteConfig) :
  StronglySorted priority_le (l1 ++ e :: l2) -> In x l1 -> priority_le x e.
Proof.
  induction l1 as [|y l1 IH]; intros Hs Hin; [done |].
  simpl in Hs. apply StronglySorted_inv in Hs as [Hs Hall].
  destruct Hin as [-> | Hin]; [| by apply IH].
  rewrite List.Forall_forall in Hall. apply Hall.
  apply in_or_app. right. by left.
Qed.

Section ResolvedPriority.

Variable RegExp : string -> option (string -> bool).

(** X20: the priority of the resolved configuration is the greatest
    priority that a matching entry states: it is stated by some matching
    entry and no matching entry states a greater one. *)
Theorem resolved_priority_is_greatest (c : IConfig)
    (entries : list (string * ISiteConfig)) (url : string) :
  localSettings c = Some entries ->
  Forall (fun e => is_Some (RegExp (fst e))) entries ->
  exists resolved,
    getConfForUrl RegExp (Some c) url = Ok resolved
    /\ forall p,
         priority resolved = Some p
         <-> ((exists e, In e (List.filter (matches_url RegExp url) entries)
                         /\ priority (snd e) = Some p)
              /\ forall e q, In e (List.filter (matches_url RegExp url) entries) ->
                             priority (snd e) = Some q -> q <= p).
Proof.
  intros Hc Hall. eexists. split.
  { unfold getConfForUrl. rewrite Hc, (filter_matching_ok RegExp) by done.
    reflexivity. }
  set (matching := List.filter (matches_url RegExp url) entries).
  set (resolved := foldl _ _ _).
  pose proof (sort_by_priority_perm matching) as Hperm.
  pose proof (sort_by_priority_sorted matching) as Hsorted.
  apply (Sorted_StronglySorted priority_le_trans) in Hsorted.
  assert (forall p, priority resolved = Some p ->
            (exists e, In e matching /\ priority (snd e) = Some p)
            /\ forall e q, In e matching -> priority (snd e) = Some q -> q <= p)
    as Hto.
  { intros p Hp.
    destruct (assign_fold_set priority matching) as [Hex _]; [done | done |].
    fold resolved in Hex. rewrite Hp in Hex.
    assert (Exists (fun e => is_Some (priority (snd e))) (sort_by_priority matching))
      as Hex'.
    { apply List.Exists_exists.
      apply List.Exists_exists in Hex as (e & Hin & He); [| by eauto].
      exists e. split; [by apply (Permutation_in _ Hperm) | done]. }
    apply last_entry_with_field in Hex' as (l1 & e & l2 & v & Heq & He & Hnone).
    destruct (assign_fold_last_wins priority (sort_by_priority matching))
      as [Hlast _]; [done | done |].
    fold resolved in Hlast. rewrite (Hlast _ _ _ _ Heq He Hnone) in Hp.
    injection Hp as ->. rewrite Heq in Hsorted. split.
    - exists e. split; [| done].
      apply (Permutation_in _ (Permutation_sym Hperm)). rewrite Heq.
      apply in_or_app. right. by left.
    - intros x q Hin Hq.
      apply (Permutation_in _ Hperm) in Hin. rewrite Heq in Hin.
      apply in_app_or in Hin as [Hin | [<- | Hin]].
      + pose proof (sorted_before _ _ _ _ Hsorted Hin) as Hle.
        unfold priority_le in Hle. rewrite Hq, He in Hle. done.
      + rewrite Hq in He. injection He as ->. lia.
      + rewrite List.Forall_forall in Hnone. apply Hnone in Hin. congruence. }
  intros p. split; [by apply Hto |].
  intros [(e & Hin & He) Hmax].
  destruct (assign_fold_set priority matching) as [_ Hex]; [done | done |].
  fold resolved in Hex. destruct Hex as [p' Hp'].
  { apply List.Exists_exists. exists e. split; [done |]. rewrite He. by eauto. }
  destruct (Hto _ Hp') as [(e' & Hin' & He') Hmax'].
  pose proof (Hmax _ _ Hin' He'). pose proof (Hmax' _ _ Hin He).
  rewrite Hp'. f_equal. lia.
Qed.

End ResolvedPriority.

Lemma resolved_priority_is_greatest_witness :
  exists resolved,
    getConfForUrl RegExp_fragment (Some example_conf) "http://example.com" = Ok resolved
    /\ priority resolved = Some 10.
Proof.
  destruct (resolved_priority_is_greatest RegExp_fragment example_conf
              [ (".*", site_entry 0 "canvas"); ("example\.com", site_entry 10 "html") ]
              "http://example.com") as (resolved & H & Hp).
  - reflexivity.
  - repeat constructor; vm_compute; eexists; reflexivity.
  - exists resolved. split; [exact H |]. apply Hp. split.
    + exists ("example\.com", site_entry 10 "html"). split; [| reflexivity].
      vm_compute. right. left. reflexivity.
    + intros e q Hin Hq. vm_compute in Hin.
      destruct Hin as [<- | [<- | []]]; vm_compute in Hq; injection Hq as <-; lia.
Defined.

(** * The listener on an event with any key *)

Lemma ignored_keys_suppressed (settings : GlobalSettings) (currentMode : option NvimMode) :
  ignored_keys settings currentMode = suppressed settings currentMode.
Proof.
  unfold ignored_keys, suppressed.
  destruct (currentMode ≫= ignoreKeys settings), (ignoreKeys settings m_all); simpl;
    by rewrite ?app_nil_r.
Qed.

Lemma answers_spec (settings : GlobalSettings) (currentMode : option NvimMode)
    (text : string) :
  answers settings currentMode
    (if negb (includes (ignored_keys settings currentMode) text)
     then Ok (emit_input text) else Ok no_effect) text.
Proof.
  unfold answers. rewrite <- ignored_keys_suppressed.
  destruct (includes _ text) eqn:E; simpl; split; intros H; try done.
  - apply includes_spec in E. contradiction.
  - apply includes_spec in H. congruence.
Qed.

Lemma alt_workaround_spec (settings : GlobalSettings) (evt : RawKeyboardEvent) :
  raw_altKey evt && String.eqb (alt settings) "alphanum"
  && negb (test_alphanum (raw_key evt)) = true
  <-> alt_workaround settings evt.
Proof.
  unfold alt_workaround.
  rewrite !andb_true_iff, String.eqb_eq, negb_true_iff. tauto.
Qed.

Lemma modifier_name_spec (k : string) :
  forallb (fun am : string * string => negb (String.eqb k (fst am)))
    (specialKeys ++ [("Shift", "S")])%list = true
  <-> ~ modifier_name k.
Proof.
  unfold modifier_name. simpl.
  rewrite !andb_true_iff, !negb_true_iff, !String.eqb_neq.
  split.
  - intros (H1 & H2 & H3 & H4 & H5 & _) [H | [H | [H | [H | [H | []]]]]]; congruence.
  - intros H. repeat split; intros ->; apply H; tauto.
Qed.

Lemma has_modifier_spec (evt : RawKeyboardEvent) :
  raw_shiftKey evt || raw_altKey evt || raw_ctrlKey evt || raw_metaKey evt = true
  <-> has_modifier evt.
Proof. unfold has_modifier. rewrite !orb_true_iff. tauto. Qed.

Lemma raw_flagged_spec (settings : GlobalSettings) (evt : RawKeyboardEvent) :
  (raw_shiftKey evt && raw_altKey evt && negb (raw_ctrlKey evt) && shiftAlt settings)
  || (raw_shiftKey evt && negb (raw_altKey evt) && raw_ctrlKey evt && shiftCtrl settings)
  || (raw_shiftKey evt && raw_altKey evt && raw_ctrlKey evt && shiftAltCtrl settings)
  = true
  <-> raw_flagged settings evt.
Proof.
  unfold raw_flagged.
  rewrite !orb_true_iff, !andb_true_iff, !negb_true_iff. tauto.
Qed.

Section RawKeyHandlerFacts.

Variable nonLiteralKeys : string -> option string.
Variable translateKey : string -> string.
Variable addModifier : string -> string -> string.

Local Abbreviation listener_raw := (keydown_raw nonLiteralKeys translateKey addModifier).
Local Abbreviation handler_raw := (KeyHandler_keydown_raw nonLiteralKeys translateKey addModifier).

(** The typed listener is the listener run on the fields of the event. *)
Lemma keydown_raw_of (settings : GlobalSettings) (m : gmap string string)
    (currentMode : option NvimMode) (evt : KeyboardEvent) :
  keydown nonLiteralKeys translateKey addModifier settings m currentMode evt
  = listener_raw settings m currentMode (raw_of evt).
Proof.
  unfold keydown, keydown_raw, alt_declined, translatable, keydown_text,
    keeps_shifted, compose, raw_of. cbn [raw_key raw_ctrlKey raw_altKey raw_shiftKey
    raw_metaKey raw_isTrusted raw_getModifierState].
  destruct (altKey evt && _ && _); [done |].
  destruct (isTrusted evt && _); [| done].
  destruct (hasUnshiftedKey m (key evt) && _); [done |].
  by destruct (getUnshiftedKey m (key evt)).
Qed.

Lemma KeyHandler_keydown_raw_of (settings : GlobalSettings)
    (currentMode : option NvimMode) (evt : KeyboardEvent) :
  KeyHandler_keydown nonLiteralKeys translateKey addModifier settings currentMode evt
  = handler_raw settings currentMode (raw_of evt).
Proof. apply keydown_raw_of. Qed.

(** The three ways the listener declines. *)
Lemma keydown_raw_declines (settings : GlobalSettings) (m : gmap string string)
    (currentMode : option NvimMode) (evt : RawKeyboardEvent) :
  alt_workaround settings evt
  \/ raw_isTrusted evt = false
  \/ (nonLiteralKeys (raw_key evt) = None
      /\ (modifier_name (raw_key evt) \/ ~ has_modifier evt)) ->
  listener_raw settings m currentMode evt = Ok no_effect.
Proof.
  intros H. unfold keydown_raw. cbv zeta.
  destruct (raw_altKey evt && _ && _) eqn:Ealt; [done |].
  destruct H as [H | H]; [apply alt_workaround_spec in H; congruence |].
  destruct (raw_isTrusted evt && _) eqn:Eg; [| done].
  apply andb_true_iff in Eg as [Ht Eg].
  destruct H as [H | [Hnl H]]; [congruence |].
  rewrite Hnl in Eg. rewrite bool_decide_eq_false_2 in Eg by (by intros [? ?]).
  simpl orb in Eg. apply andb_true_iff in Eg as [Hname Hmod].
  apply modifier_name_spec in Hname. apply has_modifier_spec in Hmod. tauto.
Qed.

(** The text of a translatable event, by what the map has for the key. *)
Lemma keydown_raw_translates (settings : GlobalSettings) (m : gmap string string)
    (currentMode : option NvimMode) (evt : RawKeyboardEvent) :
  ~ alt_workaround settings evt ->
  raw_isTrusted evt = true ->
  is_Some (nonLiteralKeys (raw_key evt))
  \/ (~ modifier_name (raw_key evt) /\ has_modifier evt) ->
  let text (mods : list (string * string)) (base : string) :=
    fold_left
      (fun key (am : string * string) =>
         if raw_getModifierState evt (fst am) then addModifier (snd am) key else key)
      mods (translateKey base) in
  (forall k, m !! raw_key evt = Some k -> ~ raw_flagged settings evt ->
     answers settings currentMode (listener_raw settings m currentMode evt)
       (text specialKeys (raw_key evt)))
  /\ (forall k, m !! raw_key evt = Some k -> k <> EmptyString ->
        raw_flagged settings evt ->
        answers settings currentMode (listener_raw settings m currentMode evt)
          (text (specialKeys ++ [("Shift", "S")])%list k))
  /\ (m !! raw_key evt = Some EmptyString -> raw_flagged settings evt ->
        answers settings currentMode (listener_raw settings m currentMode evt)
          (text (specialKeys ++ [("Shift", "S")])%list (raw_key evt)))
  /\ (m !! raw_key evt = None -> inherited (raw_key evt) = false ->
        answers settings currentMode (listener_raw settings m currentMode evt)
          (text (specialKeys ++ [("Shift", "S")])%list (raw_key evt))).
Proof.
  intros Halt Ht Hg. cbv zeta.
  assert (listener_raw settings m currentMode evt
          = inputs ←
              (if hasUnshiftedKey m (raw_key evt)
                  && negb ((raw_shiftKey evt && raw_altKey evt && negb (raw_ctrlKey evt)
                            && shiftAlt settings)
                           || (raw_shiftKey evt && negb (raw_altKey evt) && raw_ctrlKey evt
                               && shiftCtrl settings)
                           || (raw_shiftKey evt && raw_altKey evt && raw_ctrlKey evt
                               && shiftAltCtrl settings))
               then Ok (specialKeys, raw_key evt)
               else match getUnshiftedKey m (raw_key evt) with
                    | Some inputKey => Ok ((specialKeys ++ [("Shift", "S")])%list, inputKey)
                    | None => Throw TypeError
                    end);
            let text :=
              fold_left
                (fun key (am : string * string) =>
                   if raw_getModifierState evt (fst am)
                   then addModifier (snd am) key else key)
                (fst inputs) (translateKey (snd inputs)) in
            if negb (includes (ignored_keys settings currentMode) text)
            then Ok (emit_input text)
            else Ok no_effect) as ->.
  { unfold keydown_raw. cbv zeta.
    destruct (raw_altKey evt && _ && _) eqn:Ealt;
      [apply alt_workaround_spec in Ealt; contradiction |].
    assert (raw_isTrusted evt
            && (bool_decide (is_Some (nonLiteralKeys (raw_key evt)))
                || forallb (fun am : string * string => negb (String.eqb (raw_key evt) (fst am)))
                     (specialKeys ++ [("Shift", "S")])%list
                   && (raw_shiftKey evt || raw_altKey evt || raw_ctrlKey evt
                       || raw_metaKey evt)) = true) as ->; [| done].
    rewrite Ht. simpl andb. apply orb_true_iff.
    destruct Hg as [Hnl | [Hname Hmod]].
    - left. by apply bool_decide_eq_true_2.
    - right. apply andb_true_iff. split.
      + by apply modifier_name_spec.
      + by apply has_modifier_spec. }
  destruct (_ || _ || _) eqn:Ef.
  - apply raw_flagged_spec in Ef. rewrite andb_false_r.
    split; [intros k _ Hn; contradiction |]. split; [| split].
    + intros k Hk Hne _. unfold getUnshiftedKey, js_get. rewrite Hk.
      apply String.eqb_neq in Hne. rewrite Hne. apply answers_spec.
    + intros Hk _. unfold getUnshiftedKey, js_get. rewrite Hk. apply answers_spec.
    + intros Hk Hin. unfold getUnshiftedKey, js_get. rewrite Hk, Hin.
      apply answers_spec.
  - assert (~ raw_flagged settings evt) as Hn.
    { intros H. apply raw_flagged_spec in H. congruence. }
    rewrite andb_true_r. split; [| split; [| split]].
    + intros k Hk _. unfold hasUnshiftedKey, js_get. rewrite Hk. apply answers_spec.
    + intros k _ _ H. contradiction.
    + intros _ H. contradiction.
    + intros Hk Hin. unfold hasUnshiftedKey, getUnshiftedKey, js_get.
      rewrite Hk, Hin. apply answers_spec.
Qed.

Lemma alt_workaround_dec (settings : GlobalSettings) (evt : RawKeyboardEvent) :
  alt_workaround settings evt \/ ~ alt_workaround settings evt.
Proof.
  destruct (raw_altKey evt && String.eqb (alt settings) "alphanum"
            && negb (test_alphanum (raw_key evt))) eqn:E.
  - left. by apply alt_workaround_spec.
  - right. intros H. apply alt_workaround_spec in H. congruence.
Qed.

Lemma raw_flagged_dec (settings : GlobalSettings) (evt : RawKeyboardEvent) :
  raw_flagged settings evt \/ ~ raw_flagged settings evt.
Proof.
  destruct ((raw_shiftKey evt && raw_altKey evt && negb (raw_ctrlKey evt)
             && shiftAlt settings)
            || (raw_shiftKey evt && negb (raw_altKey evt) && raw_ctrlKey evt
                && shiftCtrl settings)
            || (raw_shiftKey evt && raw_altKey evt && raw_ctrlKey evt
                && shiftAltCtrl settings)) eqn:E.
  - left. by apply raw_flagged_spec.
  - right. intros H. apply raw_flagged_spec in H. congruence.
Qed.

Lemma guard_dec (evt : RawKeyboardEvent) :
  (is_Some (nonLiteralKeys (raw_key evt))
   \/ (~ modifier_name (raw_key evt) /\ has_modifier evt))
  \/ (nonLiteralKeys (raw_key evt) = None
      /\ (modifier_name (raw_key evt) \/ ~ has_modifier evt)).
Proof.
  destruct (nonLiteralKeys (raw_key evt)) as [s|]; [left; left; by eauto |].
  destruct (forallb (fun am : string * string => negb (String.eqb (raw_key evt) (fst am)))
              (specialKeys ++ [("Shift", "S")])%list) eqn:En.
  - apply modifier_name_spec in En.
    destruct (raw_shiftKey evt || raw_altKey evt || raw_ctrlKey evt || raw_metaKey evt)
      eqn:Em.
    + apply has_modifier_spec in Em. left; right. by split.
    + right. split; [done |]. right. intros H. apply has_modifier_spec in H. congruence.
  - right. split; [done |]. left.
    destruct (in_dec string_dec (raw_key evt) ["Alt"; "Control"; "OS"; "Meta"; "Shift"])
      as [H | H]; [exact H |].
    apply modifier_name_spec in H. congruence.
Qed.

Lemma answers_returns (settings : GlobalSettings) (currentMode : option NvimMode)
    (r : result Effects) (text : string) :
  answers settings currentMode r text -> exists eff, r = Ok eff.
Proof.
  intros [Hin Hout].
  destruct (includes (suppressed settings currentMode) text) eqn:E.
  - apply includes_spec in E. by eauto.
  - eexists. apply Hout. intros H. apply includes_spec in H. congruence.
Qed.

Lemma built_shiftedKeyToKey (settings : GlobalSettings) :
  layout_shiftedKeyToKey (buildShiftedKeyToKey settings)
  = invert (layout_keyToShiftedKey (buildShiftedKeyToKey settings)).
Proof. reflexivity. Qed.



End RawKeyHandlerFacts.



